(** * hikepy: the OSM lookup layer, the way table and the track stitcher

  A shallow embedding of the part of [src/py/osm_query.py] that turns an
  OSM relation into an ordered list of node ids:

  - the memoised lookups ([get_way_by_id] and friends, wrapped by
    [functools32.lru_cache]);
  - [get_relation] / [get_relation_members], which build the data frame
    with columns way, begin, end and the parallel list of node lists;
  - [create_track_points], which walks that table from a start node.

  Node and way ids are Python integers, modelled as [Z].  Python lists
  that the code updates in place live in a store of list objects; data
  frames are only ever read, so they are plain values. *)

From stdpp Require Import base list strings pretty gmap.
From Stdlib Require Import ZArith Lia.

Open Scope Z_scope.

(** ** Python values, exceptions and the store of list objects *)

Module Py.

(** The exceptions that the modelled code can meet. *)
Inductive exn : Type :=
| TypeError
| IndexError
| KeyError
| RuntimeError
| LookupFailure.

(** Outcome of running a piece of Python: a value, a raised exception, or
    [OutOfFuel] when the step budget given to a [while True] loop ran out
    before the loop left. *)
Inductive res (A : Type) : Type :=
| Val (a : A)
| Exc (e : exn)
| OutOfFuel.
Arguments Val {A} a.
Arguments Exc {A} e.
Arguments OutOfFuel {A}.

#[global] Instance res_ret : MRet res := λ A a, Val a.
#[global] Instance res_bind : MBind res := λ A B f m,
  match m with
  | Val a => f a
  | Exc e => Exc e
  | OutOfFuel => OutOfFuel
  end.
#[global] Instance res_fmap : FMap res := λ A B f m,
  match m with
  | Val a => Val (f a)
  | Exc e => Exc e
  | OutOfFuel => OutOfFuel
  end.

(** [try: m except: handler] with a bare [except:], which catches every
    exception. *)
Definition try_except {A} (m handler : res A) : res A :=
  match m with
  | Exc _ => handler
  | _ => m
  end.

(** A reference to a list object, and the store of all list objects.  A
    new object gets the next free reference. *)
Abbreviation loc := nat (only parsing).
Abbreviation store := (list (list Z)) (only parsing).

(** Stateful Python: a store transformer with an outcome. *)
Definition PyM (A : Type) : Type := store → res A * store.

#[global] Instance pym_ret : MRet PyM := λ A a h, (Val a, h).
#[global] Instance pym_bind : MBind PyM := λ A B f m h,
  match m h with
  | (Val a, h') => f a h'
  | (Exc e, h') => (Exc e, h')
  | (OutOfFuel, h') => (OutOfFuel, h')
  end.

Definition lift {A} (m : res A) : PyM A := λ h, (m, h).

(** [[x, y, ...]]: a list display builds a new object. *)
Definition new_list (l : list Z) : PyM loc := λ h, (Val (length h), h ++ [l]).

(** Reading the contents behind a reference. *)
Definition load (r : loc) : PyM (list Z) := λ h,
  match h !! r with
  | Some l => (Val l, h)
  | None => (Exc RuntimeError, h)
  end.

(** Overwriting the contents behind a reference (used by the in-place
    list methods below). *)
Definition store_at (r : loc) (l : list Z) : PyM unit := λ h,
  match h !! r with
  | Some _ => (Val tt, <[r:=l]> h)
  | None => (Exc RuntimeError, h)
  end.

(** Python's slice [l[start:stop]] on a list value, with the usual
    treatment of missing and negative bounds. *)
Definition clamp (len i : Z) : Z :=
  if i <? 0 then Z.max (i + len) 0 else Z.min i len.

Definition slice_value (start stop : option Z) (l : list Z) : list Z :=
  let len := Z.of_nat (length l) in
  let lo := from_option (clamp len) 0 start in
  let hi := from_option (clamp len) len stop in
  take (Z.to_nat (hi - lo)) (drop (Z.to_nat lo) l).

(** [r[start:stop]]: slicing a list object gives a new object. *)
Definition getslice (r : loc) (start stop : option Z) : PyM loc :=
  l ← load r; new_list (slice_value start stop l).

(** [l[i]] on a list value; a negative index counts from the end. *)
Definition index_value (l : list Z) (i : Z) : res Z :=
  let j := if i <? 0 then i + Z.of_nat (length l) else i in
  if j <? 0 then Exc IndexError
  else match l !! Z.to_nat j with
       | Some x => Val x
       | None => Exc IndexError
       end.

Definition getitem (r : loc) (i : Z) : PyM Z :=
  l ← load r; lift (index_value l i).

(** [r.reverse()]: in place. *)
Definition list_reverse (r : loc) : PyM unit :=
  l ← load r; store_at r (reverse l).

(** [r.extend(r')]: in place on [r]. *)
Definition list_extend (r r' : loc) : PyM unit :=
  l ← load r; l' ← load r'; store_at r (l ++ l').

End Py.
Export Py.

(** ** [functools32.lru_cache] *)

Module Lru.

Section lru_cache.
Context {K V : Type} `{EqDecision K}.

(** The state behind one decorated function.  [cache] is the ordered
    dictionary of the decorator, oldest entry first; [hits] and [misses]
    are its counters.  [calls] is a ghost log of the keys on which the
    wrapped function itself was run. *)
Record lru_state : Type := LruState {
  cache : list (K * V);
  hits : nat;
  misses : nat;
  calls : list K
}.

Definition lru_empty : lru_state := LruState [] 0 0 [].

(** [cache[key]] *)
Fixpoint od_get (key : K) (od : list (K * V)) : option V :=
  match od with
  | [] => None
  | (k, v) :: od' => if decide (k = key) then Some v else od_get key od'
  end.

(** [del cache[key]] *)
Fixpoint od_del (key : K) (od : list (K * V)) : list (K * V) :=
  match od with
  | [] => []
  | (k, v) :: od' => if decide (k = key) then od' else (k, v) :: od_del key od'
  end.

(** [cache.move_to_end(key)] *)
Definition od_move_to_end (key : K) (od : list (K * V)) : list (K * V) :=
  match od_get key od with
  | Some v => od_del key od ++ [(key, v)]
  | None => od
  end.

(** [cache[key] = result] *)
Definition od_set (key : K) (result : V) (od : list (K * V)) : list (K * V) :=
  match od_get key od with
  | Some _ => (λ p, if decide (p.1 = key) then (key, result) else p) <$> od
  | None => od ++ [(key, result)]
  end.

(** [cache.popitem(last=False)] *)
Definition od_popitem_first (od : list (K * V)) : list (K * V) := tail od.

(** Modelled from the spec: the decorator [lru_cache(maxsize)] of the
    functools32 package, whose code is not part of the repository.  A call
    whose key is in the cache returns the stored value and renews the key;
    any other call runs the wrapped function, stores its result as the most
    recent entry and, when the cache then holds more than [maxsize] entries,
    drops the oldest one.  A call on which the wrapped function raises
    stores nothing. *)
Definition lru_cache (maxsize : nat) (user_function : K → res V)
    (key : K) (s : lru_state) : res V * lru_state :=
  match od_get key (cache s) with
  | Some result =>
      (Val result,
       LruState (od_move_to_end key (cache s)) (S (hits s)) (misses s) (calls s))
  | None =>
      match user_function key with
      | Val result =>
          let cache' := od_set key result (cache s) in
          let cache'' := if decide (maxsize < length cache')%nat
                         then od_popitem_first cache' else cache' in
          (Val result,
           LruState cache'' (hits s) (S (misses s)) (calls s ++ [key]))
      | failure =>
          (failure, LruState (cache s) (hits s) (misses s) (calls s ++ [key]))
      end
  end.

(** The keys of the cache, least recently used first. *)
Definition od_keys (od : list (K * V)) : list K := od.*1.

(** Running a sequence of calls, dropping the results. *)
Definition lru_run (maxsize : nat) (user_function : K → res V)
    (keys : list K) (s : lru_state) : lru_state :=
  foldl (λ s key, (lru_cache maxsize user_function key s).2) s keys.

(** The distinct keys of a call sequence, ordered by their last use
    (earliest first). *)
Definition by_last_use (keys : list K) : list K :=
  foldl (λ acc key, filter (λ k, k ≠ key) acc ++ [key]) [] keys.

(** The last [n] elements of a list. *)
Definition last_n {A} (n : nat) (l : list A) : list A :=
  drop (length l - n) l.

End lru_cache.

Arguments lru_state : clear implicits.

End Lru.
Export Lru.

(** ** The fragment of pandas that the stitcher uses *)

Module Pandas.

(** One row of the frame built by [get_relation]: columns way, begin, end. *)
Record row : Type := Row { way : Z; begin : Z; end_ : Z }.

(** The frame has the default integer index: the label of a row is its
    position. *)
Abbreviation DataFrame := (list row) (only parsing).

(** A series keeps the index labels of the rows it was taken from. *)
Abbreviation Series := (list (nat * Z)) (only parsing).

Inductive column : Type := col_way | col_begin | col_end.

Definition cell (c : column) (r : row) : Z :=
  match c with
  | col_way => way r
  | col_begin => begin r
  | col_end => end_ r
  end.

(** [np.array([l_way, l_begin, l_end]).transpose()] under the column names
    way, begin, end. *)
Fixpoint frame_of_columns (l_way l_begin l_end : list Z) : DataFrame :=
  match l_way, l_begin, l_end with
  | w :: ws, b :: bs, e :: es => Row w b e :: frame_of_columns ws bs es
  | _, _, _ => []
  end.

(** [df[mask]]: the rows where the mask holds, with their labels. *)
Definition select (mask : row → bool) (df : DataFrame) : list (nat * row) :=
  List.filter (λ p, mask p.2) (imap pair df).

(** [rows.way] *)
Definition way_of (rows : list (nat * row)) : Series :=
  prod_map id way <$> rows.

(** [key in series]: membership in a series tests the index labels, not
    the values. *)
Definition series_contains (df : DataFrame) (key : Z) : bool :=
  (0 <=? key) && (key <? Z.of_nat (length df)).

(** [series.empty] *)
Definition empty (s : Series) : bool :=
  match s with [] => true | _ => false end.

(** [int(series)]: defined for a series of exactly one element. *)
Definition series_int (s : Series) : res Z :=
  match s with
  | [(_, v)] => Val v
  | _ => Exc TypeError
  end.

End Pandas.
Export Pandas.

(** ** The memoised lookups and the way table *)

Module Osm.

(** What the OSM API returns for a way and for a relation, cut down to the
    fields that the code reads. *)
Record way_dict : Type := WayDict { way_id : Z; nd : list Z }.

Record member_dict : Type := Member { type_ : string; ref : Z; role : string }.

Record relation_dict : Type := Relation { relation_id : Z; member : list member_dict }.

(** The one-character string holding a double quote. *)
Definition dquote : string := String (Ascii.ascii_of_nat 34) EmptyString.

(** The Overpass query ['relation["name"~"' + relation_name + '"]']. *)
Definition name_query (relation_name : string) : string :=
  "relation[" +:+ dquote +:+ "name" +:+ dquote +:+ "~" +:+ dquote
  +:+ relation_name +:+ dquote +:+ "]".

Section lookups.

(** The remote clients [osm_api] and [overpass_api]: each request gives a
    value or raises. *)
Context {node_dict overpass_result : Type}.
Variable RelationGet : Z → res relation_dict.
Variable OverpassGet : string → res overpass_result.
Variable WayGet : Z → res way_dict.
Variable NodeGet : Z → res node_dict.

Definition get_relation_by_id :=
  lru_cache 128 RelationGet.

Definition get_relation_by_name :=
  lru_cache 128 (λ relation_name, OverpassGet (name_query relation_name)).

Definition get_way_by_id :=
  lru_cache 2048 WayGet.

Definition get_node_by_id :=
  lru_cache 4096 NodeGet.

(** The state of the cache of [get_way_by_id]. *)
Definition way_cache := lru_state Z way_dict.

Definition get_way_nodes (way : member_dict) (s : way_cache)
    : option (list Z) * way_cache :=
  match get_way_by_id (ref way) s with
  | (Val w, s') => (Some (nd w), s')
  | (_, s') => (None, s')
  end.

(** The loop of [get_relation_nodes], with its four accumulators. *)
Fixpoint get_relation_nodes_from (ways : list member_dict)
    (l_way l_begin l_end : list Z) (l_nodes : list (list Z)) (s : way_cache)
    : (list Z * list Z * list Z * list (list Z)) * way_cache :=
  match ways with
  | [] => ((l_way, l_begin, l_end, l_nodes), s)
  | way :: ways' =>
      match get_way_nodes way s with
      | (Some ((n0 :: _) as nd), s') =>
          get_relation_nodes_from ways'
            (l_way ++ [ref way]) (l_begin ++ [n0]) (l_end ++ [List.last nd n0])
            (l_nodes ++ [nd]) s'
      | (_, s') =>
          get_relation_nodes_from ways' l_way l_begin l_end l_nodes s'
      end
  end.

Definition get_relation_nodes (ways : list member_dict) (s : way_cache) :=
  get_relation_nodes_from ways [] [] [] [] s.

Definition get_relation (ways : list member_dict) (s : way_cache)
    : (DataFrame * list (list Z)) * way_cache :=
  let '((l_way, l_begin, l_end, l_nodes), s') := get_relation_nodes ways s in
  ((frame_of_columns l_way l_begin l_end, l_nodes), s').

(** [skip_ways(ways, role=value)] *)
Definition skip_ways (ways : list member_dict) (value : string)
    : list member_dict :=
  List.filter (λ way, negb (bool_decide (role way = value))) ways.

Definition get_relation_members (relation : relation_dict) (skip : bool)
    (role : string) (s : way_cache) : (DataFrame * list (list Z)) * way_cache :=
  let members := if skip then skip_ways (member relation) role
                 else member relation in
  get_relation members s.

End lookups.

End Osm.
Export Osm.

(** ** [create_track_points]: the stitching loop *)

Module Track.

(** Bare [raise] outside a handler. *)
Definition bare_raise {A} : res A := Exc TypeError.

Definition check_node (df : DataFrame) (current_way : option Series)
    (current_node : Z) (node : column) : res Series :=
  if negb (series_contains df current_node) then
    way ← match current_way with
          | None =>
              mret (way_of (select (λ r, cell node r =? current_node) df))
          | Some cw =>
              w ← series_int cw;
              mret (way_of (select (λ r, negb (way r =? w)
                                        && (cell node r =? current_node)) df))
          end;
    if empty way then bare_raise else mret way
  else bare_raise.

Definition get_segment (df : DataFrame) (current_way : Series) : res nat :=
  w ← series_int current_way;
  match select (λ r, way r =? w) df with
  | (i, _) :: _ => Val i
  | [] => Exc IndexError
  end.

Definition get_nodes (nodes : list loc) (current_segment : nat)
    (reverse : bool) : PyM loc :=
  r ← lift (match nodes !! current_segment with
            | Some r => Val r
            | None => Exc IndexError
            end);
  list_of_nodes ← getslice r None None;
  if reverse
  then list_reverse list_of_nodes ;; mret list_of_nodes
  else mret list_of_nodes.

Definition extend_track_points (track_points list_of_nodes : loc)
    (reverse : bool) : PyM loc :=
  (if reverse
   then s ← getslice list_of_nodes None (Some (-1)); list_extend track_points s
   else s ← getslice list_of_nodes (Some 1) None; list_extend track_points s) ;;
  mret track_points.

Definition get_node_list (list_of_nodes : loc) : PyM Z :=
  getitem list_of_nodes (-1).

(** The two nested [try] blocks at the head of the loop body: the begin
    column is tried first, the end column in the handler. *)
Definition next_way (df : DataFrame) (current_way : option Series)
    (current_node : Z) : res (bool * Series) :=
  try_except
    (cw ← check_node df current_way current_node col_begin; mret (false, cw))
    (cw ← check_node df current_way current_node col_end; mret (true, cw)).

(** The [while True] loop; [fuel] bounds the number of iterations. *)
Fixpoint track_loop (fuel : nat) (df : DataFrame) (nodes : list loc)
    (current_way : option Series) (current_node : Z) (track_points : loc)
    : PyM loc :=
  match fuel with
  | O => λ h, (OutOfFuel, h)
  | S fuel' =>
      match next_way df current_way current_node with
      | Val (reverse, current_way') =>
          current_segment ← lift (get_segment df current_way');
          list_of_nodes ← get_nodes nodes current_segment reverse;
          current_node' ← get_node_list list_of_nodes;
          track_points' ← extend_track_points track_points list_of_nodes reverse;
          track_loop fuel' df nodes (Some current_way') current_node' track_points'
      | Exc _ => mret track_points
      | OutOfFuel => λ h, (OutOfFuel, h)
      end
  end.

(** The body of [create_track_points] after the table has been built:
    from [nodes = l_nodes[:]] to [return track_points]. *)
Definition stitch (fuel : nat) (df : DataFrame) (l_nodes : list loc)
    (start_node : Z) : PyM loc :=
  let nodes := l_nodes in
  track_points ← new_list [start_node];
  track_loop fuel df nodes None start_node track_points.

(** Running [stitch] on a table whose node lists are the given values:
    the lists are the objects 0, 1, ... of the store, and the outcome is
    the contents of the returned track. *)
Definition reconstruct (fuel : nat) (df : DataFrame) (l_nodes : list (list Z))
    (start_node : Z) : res (list Z) :=
  let '(r, h) := stitch fuel df (seq 0 (length l_nodes)) start_node l_nodes in
  t ← r; from_option Val (Exc RuntimeError) (h !! t).

End Track.
Export Track.

(** ** [create_track_points], from the relation to the track *)

Module Main.

(** [create_track_points(relation, start_node)].  [WayGet] is the remote
    request behind [get_way_by_id], [s] the state of its cache, and [fuel]
    the step budget of the loop.  The table is built with the defaults of
    [get_relation_members] (skip=True, role='alternative'). *)
Definition create_track_points (WayGet : Z → res way_dict) (fuel : nat)
    (relation : relation_dict) (start_node : Z) (s : way_cache)
    : res (list Z) * way_cache :=
  let '((df, l_nodes), s') :=
    get_relation_members WayGet relation true "alternative" s in
  (reconstruct fuel df l_nodes start_node, s').

End Main.
Export Main.

(** ** A store-free reading of the stitching loop

    The loop only ever writes to the track and to copies that it made
    itself, so what it computes can be described on list values alone.
    [walk] is that description; [track_loop_walk] below proves that the
    loop on the store computes it. *)

Module Pure.

(** The copy of the node list that one step works on. *)
Definition oriented (nd : list Z) (reversed : bool) : list Z :=
  if reversed then reverse nd else nd.

(** What one step adds to the track. *)
Definition appended (list_of_nodes : list Z) (reversed : bool) : list Z :=
  if reversed then slice_value None (Some (-1)) list_of_nodes
  else slice_value (Some 1) None list_of_nodes.

Fixpoint walk (fuel : nat) (df : DataFrame) (nodes : list (list Z))
    (current_way : option Series) (current_node : Z) (track : list Z)
    : res (list Z) :=
  match fuel with
  | O => OutOfFuel
  | S fuel' =>
      match next_way df current_way current_node with
      | Val (reversed, current_way') =>
          current_segment ← get_segment df current_way';
          nd ← from_option Val (Exc IndexError) (nodes !! current_segment);
          let list_of_nodes := oriented nd reversed in
          current_node' ← index_value list_of_nodes (-1);
          walk fuel' df nodes (Some current_way') current_node'
               (track ++ appended list_of_nodes reversed)
      | Exc _ => Val track
      | OutOfFuel => OutOfFuel
      end
  end.

(** The contents of the objects that a list of references points to. *)
Definition contents (h : store) (rs : list loc) : list (list Z) :=
  (λ r, default [] (h !! r)) <$> rs.

End Pure.
Export Pure.

(** ** Notions used to state the properties of the lookups and the table *)

Module Spec.

Section memoized.
Context {K V : Type} `{EqDecision K}.

(** The cache agrees with the wrapped function: every stored entry is what
    the function returns for its key (the remote source does not change). *)
Definition coherent (user_function : K → res V) (s : lru_state K V) : Prop :=
  ∀ k v, (k, v) ∈ cache s → user_function k = Val v.

(** What it means for [op] to memoise [remote] in a cache of [maxsize]
    entries with least-recently-used eviction. *)
Definition lru_memoized (maxsize : nat) (remote : K → res V)
    (op : K → lru_state K V → res V * lru_state K V) : Prop :=
  (* a key that is not cached is fetched, stored, and is then the most
     recently used entry *)
  (∀ key v s,
     od_get key (cache s) = None → remote key = Val v →
     (op key s).1 = Val v
     ∧ calls (op key s).2 = calls s ++ [key]
     ∧ od_get key (cache (op key s).2) = Some v
     ∧ last (od_keys (cache (op key s).2)) = Some key)
  (* a cached key is answered from the cache, with no call of the remote
     function, and becomes the most recently used entry; the other entries
     keep their order *)
  ∧ (∀ key v s,
       od_get key (cache s) = Some v →
       (op key s).1 = Val v
       ∧ calls (op key s).2 = calls s
       ∧ cache (op key s).2 = od_del key (cache s) ++ [(key, v)])
  (* the cache never grows beyond its capacity *)
  ∧ (∀ key s,
       (length (cache s) ≤ maxsize)%nat →
       (length (cache (op key s).2) ≤ maxsize)%nat)
  (* one more key on a full cache evicts the least recently used entry,
     and only that one *)
  ∧ (∀ key v oldest rest s,
       cache s = oldest :: rest → length (cache s) = maxsize →
       od_get key (cache s) = None → remote key = Val v →
       cache (op key s).2 = rest ++ [(key, v)])
  (* after any sequence of successful calls on an empty cache, the cache
     holds the [maxsize] most recently used keys, least recent first *)
  ∧ (∀ keys,
       Forall (λ k, ∃ v, remote k = Val v) keys →
       od_keys (cache (foldl (λ s key, (op key s).2) lru_empty keys))
       = last_n maxsize (by_last_use keys)).

End memoized.

(** The row that [get_relation_nodes] makes of a way and its node list. *)
Definition way_row (way : member_dict) (nd : list Z) : row :=
  Row (ref way) (hd 0 nd) (List.last nd 0).

Section table.
Variable WayGet : Z → res way_dict.

(** The members that [get_relation_nodes] keeps, each with the node list
    that [get_way_nodes] returned for it, in the order of the loop. *)
Fixpoint kept (ways : list member_dict) (s : way_cache)
    : list (member_dict * list Z) * way_cache :=
  match ways with
  | [] => ([], s)
  | way :: ways' =>
      match get_way_nodes WayGet way s with
      | (Some ((n0 :: _) as nd), s') =>
          let '(l, s'') := kept ways' s' in ((way, nd) :: l, s'')
      | (_, s') => kept ways' s'
      end
  end.

(** The node list of a member according to the remote source itself:
    absent when the request fails or the way has no nodes. *)
Definition remote_nodes (way : member_dict) : option (list Z) :=
  match WayGet (ref way) with
  | Val w => match nd w with [] => None | _ => Some (nd w) end
  | _ => None
  end.

(** The table and the node lists of the members whose way the remote
    source delivers. *)
Definition remote_table (ways : list member_dict) : list (member_dict * list Z) :=
  omap (λ way, nd ← remote_nodes way; Some (way, nd)) ways.

End table.

End Spec.
Export Spec.

(** ** Chains of ways stored in walking direction *)

Module Chain.

(** A way is given by its id and its node list.  This is the row that the
    table holds for it. *)
Definition segment_row (sg : Z * list Z) : row :=
  Row sg.1 (hd 0 sg.2) (List.last sg.2 0).

Definition table_of (ways : list (Z * list Z)) : DataFrame :=
  segment_row <$> ways.

Definition node_lists_of (ways : list (Z * list Z)) : list (list Z) :=
  ways.*2.

(** [linked start chain]: the ways of [chain], in this order, lead from
    [start] onwards, each stored from the node where the previous one
    ended, and each with at least two nodes. *)
Fixpoint linked (start : Z) (chain : list (Z * list Z)) : Prop :=
  match chain with
  | [] => True
  | sg :: rest =>
      head sg.2 = Some start ∧ (2 ≤ length sg.2)%nat
      ∧ linked (List.last sg.2 0) rest
  end.

(** The nodes of the chain in walking order, every junction once. *)
Definition walk_points (start : Z) (chain : list (Z * list Z)) : list Z :=
  start :: mjoin (drop 1 <$> chain.*2).

(** The node and the way at which a walk along [chain] ends. *)
Fixpoint final (current_node way_id : Z) (chain : list (Z * list Z)) : Z * Z :=
  match chain with
  | [] => (current_node, way_id)
  | sg :: rest => final (List.last sg.2 0) sg.1 rest
  end.

End Chain.
Export Chain.

(** ** A small remote source, used to run the definitions on examples *)

Module Example.

(** Ways 1, 2 and 3 exist; every other request fails. *)
Definition WayGet (way_id : Z) : res way_dict :=
  if way_id =? 1 then Val (WayDict 1 [101; 102; 103])
  else if way_id =? 2 then Val (WayDict 2 [103; 104])
  else if way_id =? 3 then Val (WayDict 3 [104; 105])
  else Exc LookupFailure.

Definition relation : relation_dict :=
  Relation 660162
    [Member "way" 1 EmptyString; Member "way" 9 EmptyString;
     Member "way" 2 "forward"; Member "way" 3 EmptyString].

End Example.

(** ** A relation with a fork, one of whose members cannot be fetched *)

Module ExampleFork.

(** Ways 1 and 2 exist and both begin at node 10; every other request
    fails. *)
Definition WayGet (way_id : Z) : res way_dict :=
  if way_id =? 1 then Val (WayDict 1 [10; 11])
  else if way_id =? 2 then Val (WayDict 2 [10; 12])
  else Exc LookupFailure.

Definition relation : relation_dict :=
  Relation 7
    [Member "way" 1 EmptyString; Member "way" 9 EmptyString;
     Member "way" 2 EmptyString].

End ExampleFork.

(** ** Bounding boxes *)

Module Bbox.

(** The four conversions only reorder their arguments, so they are given
    for any type of coordinate.  In the source each one is memoised by
    [lru_cache(maxsize=128)], which does not change what it returns. *)
Section bbox.
Context {A : Type}.






End bbox.

End Bbox.
Export Bbox.

(** ** Links to openstreetmap.org *)

Module Url.

(** [str(n)] for an integer. *)
Definition str_int (n : Z) : string := pretty n.

(** [sub in s] for two strings: [sub] occurs in [s] as a substring. *)
Fixpoint str_in (sub s : string) : bool :=
  String.prefix sub s
  || match s with
     | EmptyString => false
     | String _ s' => str_in sub s'
     end.

Definition query_id_to_osm (query_id : Z) (what layer_code : string) : string :=
  "http://www.openstreetmap.org/?" +:+ what +:+ "=" +:+ str_int query_id
  +:+ "&layers=" +:+ layer_code.

Definition way_to_osm (way_id : Z) (layer_code : string) : string :=
  query_id_to_osm way_id "way" layer_code.

Definition relation_to_osm (relation_id : Z) (layer_code : string) : string :=
  query_id_to_osm relation_id "relation" layer_code.

(** What the OSM API returns for a node, cut down to the fields that the
    code reads.  [F] is the type of the coordinates (Python floats). *)
Record node_dict (F : Type) : Type := NodeDict { node_id : Z; lat : F; lon : F }.
Arguments NodeDict {F} _ _ _.
Arguments node_id {F} _.
Arguments lat {F} _.
Arguments lon {F} _.

(** A latitude or longitude as [lat_lon_to_osm] receives it: a string such
    as 'N 59 16.58' or a number. *)
Inductive coord (F : Type) : Type :=
| Text (s : string)
| Number (x : F).
Arguments Text {F} s.
Arguments Number {F} x.

Section urls.
Context {F : Type}.

(** [str(x)] for a float, and [convert_lat_lon] (the LatLon package): both
    are taken as given. *)
Variable str_float : F → string.
Variable convert_lat_lon : coord F → coord F → res (F * F).

Definition str_coord (c : coord F) : string :=
  match c with
  | Text s => s
  | Number x => str_float x
  end.

Definition lat_lon_to_osm (lat lon : coord F) (geo_format layer_code : string)
    (zoom_level : Z) : res (option string) :=
  decimal_degrees ←
    (if str_in geo_format "degrees decimal minutes" then
       p ← convert_lat_lon lat lon;
       mret (Some (str_float p.1, str_float p.2))
     else if str_in geo_format "decimal degrees" then
       mret (Some (str_coord lat, str_coord lon))
     else mret None);
  match decimal_degrees with
  | None => mret None
  | Some (dlat, dlon) =>
      mret (Some ("http://www.openstreetmap.org/?mlat=" +:+ dlat +:+ "&mlon="
                  +:+ dlon +:+ "#map=" +:+ str_int zoom_level +:+ "/" +:+ dlat
                  +:+ "/" +:+ dlon +:+ "&layers=" +:+ layer_code))
  end.

Variable NodeGet : Z → res (node_dict F).

Definition node_to_osm (node_id : Z) (layer_code : string) (marker : bool)
    (zoom_level : Z) (s : lru_state Z (node_dict F))
    : res (option string) * lru_state Z (node_dict F) :=
  if marker then
    match get_node_by_id NodeGet node_id s with
    | (Val node, s') =>
        (lat_lon_to_osm (Number (lat node)) (Number (lon node))
           "decimal degrees" layer_code zoom_level, s')
    | (Exc e, s') => (Exc e, s')
    | (OutOfFuel, s') => (OutOfFuel, s')
    end
  else (Val (Some (query_id_to_osm node_id "node" layer_code)), s).

End urls.

End Url.
Export Url.

(** ** [srtm_query.get_elevation] *)

Module Srtm.

Section elevation.
Context {F E : Type}.

(** The remote request for a node, and the elevation that the srtm data
    gives for a latitude and a longitude
    ([elevation_data.get_elevation(lat, lon, approximate=True)]). *)
Variable NodeGet : Z → res (node_dict F).
Variable srtm_elevation : F → F → E.

(** The loop of [get_elevation]: the dictionary built so far, the state of
    the cache of [get_node_by_id], and the elevations printed so far. *)
Fixpoint get_elevation_from (track_points : list Z) (elevation : gmap Z E)
    (s : lru_state Z (node_dict F)) (printed : list E)
    : res (gmap Z E) * lru_state Z (node_dict F) * list E :=
  match track_points with
  | [] => (Val elevation, s, printed)
  | nd :: track_points' =>
      match get_node_by_id NodeGet nd s with
      | (Val node, s') =>
          let e := srtm_elevation (lat node) (lon node) in
          get_elevation_from track_points' (<[nd := e]> elevation) s'
            (printed ++ [e])
      | (Exc e, s') => (Exc e, s', printed)
      | (OutOfFuel, s') => (OutOfFuel, s', printed)
      end
  end.

Definition get_elevation (track_points : list Z)
    (s : lru_state Z (node_dict F))
    : res (gmap Z E) * lru_state Z (node_dict F) * list E :=
  get_elevation_from track_points ∅ s [].

End elevation.

End Srtm.
Export Srtm.

(** ** [get_way_points] *)

Module WayPoints.

Definition get_way_points (relation : relation_dict) : list Z :=
  ref <$> List.filter (λ r, bool_decide (type_ r = "node")) (member relation).

End WayPoints.
Export WayPoints.

(** ** [relation_to_dataframes] *)

Module Frames.

(** A cell of a frame: an integer, a string, or None. *)
Inductive cell_value : Type :=
| Int (n : Z)
| Str (s : string)
| NoneCell.

(** A frame with named columns; every row has one cell per column. *)
Record frame : Type := Frame { columns : list string; rows : list (list cell_value) }.

(** Python's slice [l[start:stop]] on a list of any type. *)
Definition slice {A} (start stop : option Z) (l : list A) : list A :=
  let len := Z.of_nat (length l) in
  let lo := from_option (clamp len) 0 start in
  let hi := from_option (clamp len) len stop in
  take (Z.to_nat (hi - lo)) (drop (Z.to_nat lo) l).

(** The frame that [get_relation] returns, with its column names. *)
Definition frame_of (df : DataFrame) : frame :=
  Frame ["way"; "begin"; "end"]
        ((λ r, [Int (way r); Int (begin r); Int (end_ r)]) <$> df).

(** The position of a column. *)
Fixpoint column_index (name : string) (columns : list string) : option nat :=
  match columns with
  | [] => None
  | c :: columns' =>
      if decide (c = name) then Some 0%nat
      else S <$> column_index name columns'
  end.

(** [data_frame[name] = value] with a scalar: a column of that name is
    overwritten, a new name is added as last column. *)
Definition set_column (name : string) (value : cell_value) (data_frame : frame)
    : frame :=
  match column_index name (columns data_frame) with
  | Some i => Frame (columns data_frame) ((λ row, <[i := value]> row) <$> rows data_frame)
  | None => Frame (columns data_frame ++ [name])
                  ((λ row, row ++ [value]) <$> rows data_frame)
  end.

Definition add_columns (data_frame : frame) (names : list (string * cell_value))
    : frame :=
  foldl (λ fr item, set_column item.1 item.2 fr) data_frame names.

(** [data_frame[names]] with a list of names: these columns, in this
    order; KeyError when a name is not a column. *)
Fixpoint column_indexes (names columns : list string) : res (list nat) :=
  match names with
  | [] => Val []
  | name :: names' =>
      match column_index name columns with
      | Some i => idx ← column_indexes names' columns; mret (i :: idx)
      | None => Exc KeyError
      end
  end.

Definition select_columns (names : list string) (data_frame : frame)
    : res frame :=
  match column_indexes names (columns data_frame) with
  | Val idx =>
      Val (Frame names
             ((λ row, (λ i, default NoneCell (row !! i)) <$> idx)
                <$> rows data_frame))
  | Exc e => Exc e
  | OutOfFuel => OutOfFuel
  end.

Definition change_column_order (data_frame : frame) : res frame :=
  let columns := columns data_frame in
  select_columns (slice (Some (-1)) None columns ++ slice None (Some (-1)) columns)
    data_frame.

Section dataframes.

(** [str] of a list of node ids is taken as given. *)
Variable str_nodes : list Z → string.
Variable WayGet : Z → res way_dict.

(** The relation dictionary has a 'tag' entry besides 'id' and 'member'.
    The nodes frame is built from two lists, the ways of the table as
    strings and the node lists as strings; [get_relation] gives them the
    same length, so they are paired element by element. *)
Definition relation_to_dataframes (relation : relation_dict)
    (tag : gmap string string) (skip : bool) (role : string) (s : way_cache)
    : res (frame * frame * frame) * way_cache :=
  let '((df, l_nodes), s') := get_relation_members WayGet relation skip role s in
  (df_ways ← change_column_order
               (add_columns (frame_of df)
                            [("relation", Int (relation_id relation))]);
   let df_nodes :=
     Frame ["relation"; "way"; "nodes"]
           (zip_with (λ w nodes, [Int (relation_id relation); Str w; Str nodes])
                     (str_int ∘ way <$> df) (str_nodes <$> l_nodes)) in
   name ← from_option Val (Exc KeyError) (tag !! "name");
   let source := from_option Str NoneCell (tag !! "source") in
   let df_relation :=
     Frame ["relation"; "name"; "source"]
           [[Int (relation_id relation); Str name; source]] in
   mret (df_relation, df_ways, df_nodes),
   s').

End dataframes.

End Frames.
Export Frames.

(** ** Nodes used to run the definitions on examples *)

Module ExampleNodes.

(** Nodes 1 and 2 exist, with whole-number coordinates; every other
    request fails. *)
Definition NodeGet (node_id : Z) : res (node_dict Z) :=
  if node_id =? 1 then Val (NodeDict 1 59 18)
  else if node_id =? 2 then Val (NodeDict 2 60 17)
  else Exc LookupFailure.

Definition srtm_elevation (lat lon : Z) : Z := lat + lon.

Definition str_float (x : Z) : string := pretty x.

End ExampleNodes.


(** * Properties *)

(** ** Slices and indexing *)

Lemma slice_value_all (l : list Z) : slice_value None None l = l.
Proof.
  unfold slice_value; simpl.
  rewrite Z.sub_0_r, Nat2Z.id, drop_0. apply firstn_all.
Qed.

Lemma slice_value_from_1 (l : list Z) : slice_value (Some 1) None l = drop 1 l.
Proof.
  unfold slice_value, clamp; simpl.
  destruct l as [|x l]; [reflexivity|].
  replace (Z.min 1 (Z.of_nat (length (x :: l)))) with 1
    by (simpl length; lia).
  change (Z.to_nat 1) with 1%nat. simpl drop. rewrite drop_0.
  apply take_ge. simpl length. lia.
Qed.

Lemma slice_value_to_last (l : list Z) :
  slice_value None (Some (-1)) l = take (length l - 1) l.
Proof.
  unfold slice_value, clamp; simpl.
  rewrite drop_0. f_equal. lia.
Qed.

Lemma index_value_last (l : list Z) :
  index_value l (-1) = from_option Val (Exc IndexError) (last l).
Proof.
  unfold index_value. simpl.
  destruct l as [|x l] using rev_ind; [reflexivity|].
  rewrite last_snoc, length_app. simpl length.
  destruct (Z.ltb_spec (-1 + Z.of_nat (length l + 1)) 0) as [Hneg|_]; [lia|].
  replace (Z.to_nat (-1 + Z.of_nat (length l + 1))) with (length l) by lia.
  rewrite lookup_app_r by lia. rewrite Nat.sub_diag. reflexivity.
Qed.

(** ** The loop on the store computes [walk]

    Throughout the loop the store has the shape [h0 ++ track :: extra]:
    [h0] holds the objects that existed before the call, the next object is
    the track, and [extra] holds the copies and slices made so far. *)

Lemma lookup_old (h0 extra : store) (t : list Z) (r : loc) :
  (r < length h0)%nat →
  (h0 ++ t :: extra) !! r = Some (default [] (h0 !! r)).
Proof.
  intros Hr. rewrite lookup_app_l by exact Hr.
  destruct (lookup_lt_is_Some_2 h0 r Hr) as [l Hl]. rewrite Hl. reflexivity.
Qed.

Lemma lookup_track (h0 extra : store) (t : list Z) :
  (h0 ++ t :: extra) !! length h0 = Some t.
Proof. rewrite lookup_app_r by lia. rewrite Nat.sub_diag. reflexivity. Qed.

Lemma lookup_newest (h0 extra : store) (t l : list Z) :
  (h0 ++ t :: extra ++ [l]) !! length (h0 ++ t :: extra) = Some l.
Proof.
  change (h0 ++ t :: extra ++ [l]) with (h0 ++ (t :: extra) ++ [l]).
  rewrite app_assoc. rewrite lookup_app_r by lia.
  rewrite Nat.sub_diag. reflexivity.
Qed.

Lemma insert_track (h0 extra : store) (t t' : list Z) :
  <[length h0 := t']> (h0 ++ t :: extra) = h0 ++ t' :: extra.
Proof.
  rewrite insert_app_r_alt by lia. rewrite Nat.sub_diag. reflexivity.
Qed.

Lemma insert_newest (h0 extra : store) (t l l' : list Z) :
  <[length (h0 ++ t :: extra) := l']> (h0 ++ t :: extra ++ [l])
  = h0 ++ t :: extra ++ [l'].
Proof.
  change (h0 ++ t :: extra ++ [l]) with (h0 ++ (t :: extra) ++ [l]).
  rewrite (app_assoc h0 (t :: extra) [l]).
  rewrite insert_app_r_alt by lia. rewrite Nat.sub_diag. simpl.
  rewrite <- app_assoc. reflexivity.
Qed.

Lemma snoc_store (h0 extra : store) (t l : list Z) :
  (h0 ++ t :: extra) ++ [l] = h0 ++ t :: extra ++ [l].
Proof. rewrite <- app_assoc. reflexivity. Qed.

Lemma get_nodes_miss (nodes : list loc) (seg : nat) (reversed : bool) (h : store) :
  nodes !! seg = None →
  get_nodes nodes seg reversed h = (Exc IndexError, h).
Proof. intros Hn. unfold get_nodes, mbind, pym_bind, lift. rewrite Hn. reflexivity. Qed.

Lemma get_nodes_run (nodes : list loc) (seg : nat) (reversed : bool)
    (h0 extra : store) (t : list Z) (r : loc) :
  nodes !! seg = Some r → (r < length h0)%nat →
  get_nodes nodes seg reversed (h0 ++ t :: extra)
  = (Val (length (h0 ++ t :: extra)),
     h0 ++ t :: extra ++ [oriented (default [] (h0 !! r)) reversed]).
Proof.
  intros Hn Hr.
  unfold get_nodes, getslice, list_reverse, load, store_at, new_list,
    mbind, pym_bind, lift, mret, pym_ret.
  rewrite Hn. rewrite (lookup_old _ _ _ _ Hr). rewrite slice_value_all.
  rewrite snoc_store.
  destruct reversed; simpl oriented; [|reflexivity].
  rewrite lookup_newest. rewrite lookup_newest. rewrite insert_newest.
  reflexivity.
Qed.

Lemma get_node_list_run (h0 extra : store) (t l : list Z) :
  get_node_list (length (h0 ++ t :: extra)) (h0 ++ t :: extra ++ [l])
  = (index_value l (-1), h0 ++ t :: extra ++ [l]).
Proof.
  unfold get_node_list, getitem, load, mbind, pym_bind, lift.
  rewrite lookup_newest. destruct (index_value l (-1)); reflexivity.
Qed.

Lemma extend_track_points_run (h0 extra : store) (t l : list Z) (reversed : bool) :
  extend_track_points (length h0) (length (h0 ++ t :: extra)) reversed
    (h0 ++ t :: extra ++ [l])
  = (Val (length h0),
     h0 ++ (t ++ appended l reversed) :: (extra ++ [l]) ++ [appended l reversed]).
Proof.
  unfold extend_track_points, getslice, list_extend, load, store_at, new_list,
    mbind, pym_bind, lift, mret, pym_ret.
  assert (Hnew : ∀ s : list Z,
    (h0 ++ t :: (extra ++ [l]) ++ [s]) !! length (h0 ++ t :: extra ++ [l])
    = Some s) by (intros s; apply lookup_newest).
  destruct reversed; simpl appended.
  - rewrite lookup_newest. rewrite snoc_store. rewrite lookup_track.
    rewrite Hnew. rewrite lookup_track. rewrite insert_track. reflexivity.
  - rewrite lookup_newest. rewrite snoc_store. rewrite lookup_track.
    rewrite Hnew. rewrite lookup_track. rewrite insert_track. reflexivity.
Qed.

Lemma track_loop_walk (fuel : nat) (df : DataFrame) (nodes : list loc)
    (h0 : store) :
  Forall (λ r, (r < length h0)%nat) nodes →
  ∀ (current_way : option Series) (current_node : Z) (track : list Z)
    (extra : store),
  ∃ (track' : list Z) (extra' : store),
    track_loop fuel df nodes current_way current_node (length h0)
      (h0 ++ track :: extra)
    = ((λ _, length h0) <$>
         walk fuel df (contents h0 nodes) current_way current_node track,
       h0 ++ track' :: extra')
    ∧ (∀ t, walk fuel df (contents h0 nodes) current_way current_node track
            = Val t → track' = t).
Proof.
  intros Hnodes.
  induction fuel as [|fuel IH]; intros current_way current_node track extra.
  - exists track, extra. split; [reflexivity|discriminate].
  - simpl track_loop. simpl walk.
    destruct (next_way df current_way current_node) as [[reversed cw']|e|].
    + unfold mbind at 1, pym_bind at 1, lift at 1.
      destruct (get_segment df cw') as [seg|e|]; simpl.
      2,3: exists track, extra; split; [reflexivity|discriminate].
      unfold contents. rewrite list_lookup_fmap.
      destruct (nodes !! seg) as [r|] eqn:Hseg; simpl.
      2: { unfold mbind at 1, pym_bind at 1. rewrite get_nodes_miss by exact Hseg.
           exists track, extra. split; [reflexivity|discriminate]. }
      assert (Hr : (r < length h0)%nat).
      { rewrite Forall_forall in Hnodes. apply Hnodes.
        eapply list_elem_of_lookup_2; eauto. }
      unfold mbind at 1, pym_bind at 1.
      rewrite (get_nodes_run _ _ _ _ _ _ _ Hseg Hr).
      unfold mbind at 1, pym_bind at 1.
      rewrite get_node_list_run.
      set (lon := oriented (default [] (h0 !! r)) reversed).
      destruct (index_value lon (-1)) as [cn'|e|]; simpl.
      2,3: eexists track, _; split; [reflexivity|discriminate].
      unfold mbind at 1, pym_bind at 1.
      rewrite extend_track_points_run.
      destruct (IH (Some cw') cn' (track ++ appended lon reversed)
                  ((extra ++ [lon]) ++ [appended lon reversed]))
        as (track' & extra' & Hrun & Hval).
      exists track', extra'. split; [exact Hrun|exact Hval].
    + exists track, extra. split; [reflexivity|]. intros t [= <-]. reflexivity.
    + exists track, extra. split; [reflexivity|discriminate].
Qed.

Lemma contents_seq (l_nodes : list (list Z)) :
  contents l_nodes (seq 0 (length l_nodes)) = l_nodes.
Proof.
  apply list_eq. intros i. unfold contents. rewrite list_lookup_fmap.
  destruct (l_nodes !! i) as [l|] eqn:Hi.
  - rewrite lookup_seq_lt by (eapply lookup_lt_Some; eauto).
    simpl. rewrite Hi. reflexivity.
  - rewrite lookup_seq_ge by (apply lookup_ge_None; exact Hi). reflexivity.
Qed.

(** On a table whose node lists are given as values, the outcome of the
    stitcher is that of [walk] started with the track [[start_node]]. *)
Lemma reconstruct_walk (fuel : nat) (df : DataFrame) (l_nodes : list (list Z))
    (start_node : Z) :
  reconstruct fuel df l_nodes start_node
  = walk fuel df l_nodes None start_node [start_node].
Proof.
  unfold reconstruct, stitch, new_list, mbind at 1, pym_bind at 1.
  assert (Hn : Forall (λ r, (r < length l_nodes)%nat) (seq 0 (length l_nodes))).
  { apply Forall_forall. intros r Hr. apply elem_of_seq in Hr. lia. }
  destruct (track_loop_walk fuel df _ l_nodes Hn None start_node [start_node] [])
    as (track' & extra' & Hrun & Hval).
  rewrite Hrun. rewrite contents_seq in *.
  destruct (walk fuel df l_nodes None start_node [start_node]) as [t|e|];
    simpl; [|reflexivity|reflexivity].
  rewrite lookup_track. simpl. rewrite (Hval t eq_refl). reflexivity.
Qed.

(** A step in which the current node is matched by two or more rows other
    than the one just used does not pick one of them: [check_node] hands
    the whole series to [get_segment], whose [int(current_way)] raises. *)
Lemma series_int_many (s : Series) :
  (2 <= length s)%nat → series_int s = Exc TypeError.
Proof. destruct s as [|[i v] [|p s]]; simpl; intros; try lia; reflexivity. Qed.

Lemma walk_junction (fuel : nat) (df : DataFrame) (nodes : list (list Z))
    (current_way : option Series) (current_node : Z) (track : list Z)
    (reversed : bool) (matches : Series) :
  next_way df current_way current_node = Val (reversed, matches) →
  (2 <= length matches)%nat →
  walk (S fuel) df nodes current_way current_node track = Exc TypeError.
Proof.
  intros Hnext Hmany. simpl. rewrite Hnext.
  unfold get_segment. rewrite (series_int_many _ Hmany). reflexivity.
Qed.

(** ** The ordered dictionary and the decorator *)

Section lru_facts.
Context {K V : Type} `{EqDecision K}.
Implicit Types (od : list (K * V)) (key : K) (s : lru_state K V).

Lemma filter_ne_id (key : K) (l : list K) :
  key ∉ l → filter (λ k, k ≠ key) l = l.
Proof.
  induction l as [|k l IH]; [reflexivity|].
  rewrite not_elem_of_cons. intros [Hne Hl].
  rewrite filter_cons_True by congruence. rewrite (IH Hl). reflexivity.
Qed.

Lemma filter_ne_length (key : K) (l : list K) :
  NoDup l → key ∈ l → S (length (filter (λ k, k ≠ key) l)) = length l.
Proof.
  induction l as [|k l IH]; intros Hnd Hin.
  - apply elem_of_nil in Hin. contradiction.
  - apply NoDup_cons in Hnd as [Hk Hnd].
    destruct (decide (k = key)) as [->|Hne].
    + rewrite filter_cons_False by (intros Hc; apply Hc; reflexivity).
      rewrite (filter_ne_id _ _ Hk). reflexivity.
    + rewrite filter_cons_True by exact Hne. simpl.
      apply elem_of_cons in Hin as [Heq|Hin]; [congruence|].
      rewrite (IH Hnd Hin). reflexivity.
Qed.

Lemma od_get_None key od : od_get key od = None ↔ key ∉ od_keys od.
Proof.
  unfold od_keys. induction od as [|[k v] od IH]; simpl.
  - split; [intros _; apply not_elem_of_nil|reflexivity].
  - rewrite not_elem_of_cons. destruct (decide (k = key)) as [->|Hne].
    + split; [discriminate|]. intros [Hk _]. congruence.
    + rewrite IH. split; [intros Hn; split; [congruence|exact Hn]|intros [_ Hn]; exact Hn].
Qed.

Lemma od_get_Some_elem key v od : od_get key od = Some v → (key, v) ∈ od.
Proof.
  induction od as [|[k w] od IH]; simpl; [discriminate|].
  destruct (decide (k = key)) as [->|Hne].
  - intros [= ->]. apply list_elem_of_here.
  - intros Hg. apply list_elem_of_further. apply IH. exact Hg.
Qed.

Lemma od_get_app key od od' :
  od_get key (od ++ od')
  = match od_get key od with Some v => Some v | None => od_get key od' end.
Proof.
  induction od as [|[k w] od IH]; simpl; [reflexivity|].
  destruct (decide (k = key)); [reflexivity|exact IH].
Qed.

Lemma od_del_elem key od (p : K * V) : p ∈ od_del key od → p ∈ od.
Proof.
  induction od as [|[k w] od IH]; simpl; [trivial|].
  destruct (decide (k = key)).
  - apply list_elem_of_further.
  - intros Hp. apply elem_of_cons in Hp as [->|Hp].
    + apply list_elem_of_here.
    + apply list_elem_of_further. apply IH. exact Hp.
Qed.

Lemma od_del_length key v od :
  od_get key od = Some v → S (length (od_del key od)) = length od.
Proof.
  induction od as [|[k w] od IH]; simpl; [discriminate|].
  destruct (decide (k = key)); [reflexivity|].
  intros Hg. simpl. rewrite (IH Hg). reflexivity.
Qed.

Lemma od_del_keys key od :
  NoDup (od_keys od) →
  od_keys (od_del key od) = filter (λ k, k ≠ key) (od_keys od).
Proof.
  unfold od_keys. induction od as [|[k w] od IH]; simpl; [reflexivity|].
  intros Hnd. apply NoDup_cons in Hnd as [Hk Hnd].
  destruct (decide (k = key)) as [->|Hne].
  - rewrite filter_cons_False by (intros Hc; apply Hc; reflexivity).
    rewrite (filter_ne_id _ _ Hk). reflexivity.
  - rewrite filter_cons_True by exact Hne. simpl. f_equal. apply IH, Hnd.
Qed.

(** The two paths of the decorator, as equations. *)
Lemma lru_cache_hit maxsize (f : K → res V) key v s :
  od_get key (cache s) = Some v →
  lru_cache maxsize f key s
  = (Val v, LruState (od_del key (cache s) ++ [(key, v)])
                     (S (hits s)) (misses s) (calls s)).
Proof.
  intros Hg. unfold lru_cache, od_move_to_end. rewrite Hg. reflexivity.
Qed.

Lemma lru_cache_miss maxsize (f : K → res V) key v s :
  od_get key (cache s) = None → f key = Val v →
  lru_cache maxsize f key s
  = (Val v,
     LruState (if decide (maxsize < S (length (cache s)))%nat
               then tail (cache s ++ [(key, v)]) else cache s ++ [(key, v)])
              (hits s) (S (misses s)) (calls s ++ [key])).
Proof.
  intros Hg Hf. unfold lru_cache, od_set, od_popitem_first.
  rewrite Hg, Hf. rewrite length_app. simpl length.
  rewrite Nat.add_1_r. reflexivity.
Qed.

Lemma lru_cache_fail maxsize (f : K → res V) key s :
  od_get key (cache s) = None → (∀ v, f key ≠ Val v) →
  lru_cache maxsize f key s
  = (f key, LruState (cache s) (hits s) (misses s) (calls s ++ [key])).
Proof.
  intros Hg Hf. unfold lru_cache. rewrite Hg.
  destruct (f key) as [v| |]; [destruct (Hf v); reflexivity|reflexivity..].
Qed.

(** A coherent cache answers like the wrapped function, and stays
    coherent. *)
Lemma lru_cache_coherent maxsize (f : K → res V) key s :
  coherent f s →
  (lru_cache maxsize f key s).1 = f key
  ∧ coherent f (lru_cache maxsize f key s).2.
Proof.
  intros Hco. destruct (od_get key (cache s)) as [v|] eqn:Hg.
  - rewrite (lru_cache_hit _ _ _ _ _ Hg). simpl. split.
    + symmetry. apply Hco. apply od_get_Some_elem. exact Hg.
    + intros k w Hin. simpl in Hin. apply elem_of_app in Hin as [Hin|Hin].
      * apply Hco. eapply od_del_elem. exact Hin.
      * apply list_elem_of_singleton in Hin as [= -> ->].
        apply Hco. apply od_get_Some_elem. exact Hg.
  - destruct (f key) as [v|e|] eqn:Hf.
    + rewrite (lru_cache_miss _ _ _ _ _ Hg Hf). simpl. split; [reflexivity|].
      assert (Hall : ∀ k w, (k, w) ∈ cache s ++ [(key, v)] → f k = Val w).
      { intros k w Hin. apply elem_of_app in Hin as [Hin|Hin].
        - apply Hco. exact Hin.
        - apply list_elem_of_singleton in Hin as [= -> ->]. exact Hf. }
      intros k w Hin. simpl in Hin. apply Hall.
      destruct (decide _); [|exact Hin].
      revert Hin. generalize (cache s ++ [(key, v)]).
      intros [|p rest] Hin; [exact Hin|].
      apply list_elem_of_further. exact Hin.
    + rewrite (lru_cache_fail _ _ _ _ Hg) by (intros v; rewrite Hf; discriminate).
      simpl. split; [congruence|exact Hco].
    + rewrite (lru_cache_fail _ _ _ _ Hg) by (intros v; rewrite Hf; discriminate).
      simpl. split; [congruence|exact Hco].
Qed.

(** The bookkeeping of one call on the list of keys: [older ++ cached] are
    the keys used so far, by last use, of which the cache holds the part
    [cached]. *)
Lemma drop_1_tail {A} (l : list A) : drop 1 l = tail l.
Proof. destruct l; [reflexivity|]. simpl. apply drop_0. Qed.

Lemma last_n_step (older cached : list K) (n : nat) (key : K) :
  NoDup (older ++ cached) →
  (length cached ≤ n)%nat →
  older = [] ∨ length cached = n →
  (if decide (key ∈ cached) then filter (λ k, k ≠ key) cached ++ [key]
   else if decide (n < S (length cached))%nat then tail (cached ++ [key])
        else cached ++ [key])
  = last_n n (filter (λ k, k ≠ key) (older ++ cached) ++ [key]).
Proof.
  intros Hnd Hlen Hfull.
  apply NoDup_app in Hnd as (Holder & Hdisj & Hcached).
  rewrite filter_app. unfold last_n.
  destruct (decide (key ∈ cached)) as [Hin|Hnin].
  - assert (Hno : key ∉ older) by (intros Ho; exact (Hdisj key Ho Hin)).
    rewrite (filter_ne_id key older Hno).
    pose proof (filter_ne_length key cached Hcached Hin) as Hfl.
    rewrite <- app_assoc. rewrite !length_app. simpl length.
    destruct Hfull as [->|Hn].
    + simpl. replace (_ - n)%nat with 0%nat by lia. reflexivity.
    + replace (_ - n)%nat with (length older) by lia.
      symmetry. apply drop_app_length.
  - rewrite (filter_ne_id key cached Hnin).
    destruct (decide (key ∈ older)) as [Ho|Hno].
    + destruct Hfull as [->|Hn]; [apply elem_of_nil in Ho; contradiction|].
      rewrite decide_True by lia.
      pose proof (filter_ne_length key older Holder Ho) as Hfl.
      rewrite <- app_assoc. rewrite !length_app. simpl length.
      rewrite drop_app_ge by lia.
      replace (_ - _)%nat with 1%nat by lia. symmetry. apply drop_1_tail.
    + rewrite (filter_ne_id key older Hno).
      rewrite <- app_assoc. rewrite !length_app. simpl length.
      destruct (decide (n < S (length cached))%nat) as [Hlt|Hge].
      * rewrite drop_app_ge by lia.
        replace (_ - _)%nat with 1%nat by lia. symmetry. apply drop_1_tail.
      * destruct Hfull as [->|Hn]; [|lia].
        simpl. replace (_ - n)%nat with 0%nat by lia. reflexivity.
Qed.

Lemma by_last_use_snoc (keys : list K) (key : K) :
  by_last_use (keys ++ [key])
  = filter (λ k, k ≠ key) (by_last_use keys) ++ [key].
Proof. unfold by_last_use. rewrite foldl_snoc. reflexivity. Qed.

Lemma by_last_use_NoDup (keys : list K) : NoDup (by_last_use keys).
Proof.
  induction keys as [|key keys IH] using rev_ind; [constructor|].
  rewrite by_last_use_snoc. apply NoDup_app. split; [|split].
  - apply NoDup_filter. exact IH.
  - intros x Hx Hk. apply list_elem_of_filter in Hx as [Hne _].
    apply list_elem_of_singleton in Hk. contradiction.
  - apply NoDup_singleton.
Qed.

(** After any sequence of successful calls on an empty cache, the cache
    holds the [maxsize] most recently used keys. *)
Lemma lru_run_keys (maxsize : nat) (f : K → res V) (keys : list K) :
  Forall (λ k, ∃ v, f k = Val v) keys →
  od_keys (cache (foldl (λ s key, (lru_cache maxsize f key s).2) lru_empty keys))
  = last_n maxsize (by_last_use keys).
Proof.
  induction keys as [|key keys IH] using rev_ind; intros Hok; [reflexivity|].
  apply Forall_app in Hok as [Hok Hkey].
  apply Forall_singleton in Hkey as [v Hv].
  specialize (IH Hok). rewrite foldl_snoc, by_last_use_snoc.
  set (s := foldl _ lru_empty keys) in *.
  set (used := by_last_use keys) in *.
  pose proof (by_last_use_NoDup keys) as Hnd. fold used in Hnd.
  assert (Hsplit : take (length used - maxsize) used ++ last_n maxsize used = used)
    by apply take_drop.
  assert (Hlen : (length (last_n maxsize used) ≤ maxsize)%nat)
    by (unfold last_n; rewrite length_drop; lia).
  assert (Hfull : take (length used - maxsize) used = []
                  ∨ length (last_n maxsize used) = maxsize).
  { unfold last_n. rewrite length_drop.
    destruct (decide (length used ≤ maxsize)%nat) as [Hle|Hgt].
    - left. replace (length used - maxsize)%nat with 0%nat by lia. reflexivity.
    - right. lia. }
  pose proof (last_n_step (take (length used - maxsize) used)
                (last_n maxsize used) maxsize key) as Hstep.
  rewrite Hsplit in Hstep. specialize (Hstep Hnd Hlen Hfull).
  rewrite <- Hstep. clear Hstep.
  rewrite <- IH.
  assert (Hlk : length (od_keys (cache s)) = length (cache s))
    by apply length_fmap.
  destruct (od_get key (cache s)) as [w|] eqn:Hg.
  - rewrite (lru_cache_hit _ _ _ _ _ Hg). simpl.
    destruct (decide (key ∈ od_keys (cache s))) as [_|Hn];
      [|apply od_get_None in Hn; congruence].
    unfold od_keys at 1. rewrite fmap_app. simpl.
    f_equal. apply od_del_keys. rewrite IH.
    eapply sublist_NoDup; [apply by_last_use_NoDup|apply sublist_drop].
  - rewrite (lru_cache_miss _ _ _ _ _ Hg Hv). simpl.
    destruct (decide (key ∈ od_keys (cache s))) as [Hi|_];
      [apply od_get_None in Hg; contradiction|].
    rewrite Hlk. unfold od_keys.
    destruct (decide (maxsize < S (length (cache s)))%nat).
    + rewrite fmap_tail, fmap_app. reflexivity.
    + rewrite fmap_app. reflexivity.
Qed.

(** The decorator memoises the wrapped function with least-recently-used
    eviction, for every capacity of at least one entry. *)
Lemma lru_cache_memoized (maxsize : nat) (f : K → res V) :
  (1 ≤ maxsize)%nat → lru_memoized maxsize f (lru_cache maxsize f).
Proof.
  intros Hcap. unfold lru_memoized. repeat split.
  - rewrite (lru_cache_miss _ _ _ _ _ H H0). reflexivity.
  - rewrite (lru_cache_miss _ _ _ _ _ H H0). reflexivity.
  - rewrite (lru_cache_miss _ _ _ _ _ H H0). simpl.
    assert (Hnew : od_get key (cache s ++ [(key, v)]) = Some v).
    { rewrite od_get_app, H. simpl. rewrite decide_True by reflexivity.
      reflexivity. }
    destruct (decide _) as [Hlt|_]; [|exact Hnew].
    destruct (cache s) as [|[k0 v0] rest] eqn:Hc; [simpl in Hlt; lia|].
    simpl in *. destruct (decide (k0 = key)); [discriminate|exact Hnew].
  - rewrite (lru_cache_miss _ _ _ _ _ H H0). simpl.
    destruct (decide _) as [Hlt|_].
    + destruct (cache s) as [|p rest] eqn:Hc; [simpl in Hlt; lia|].
      simpl. unfold od_keys. rewrite fmap_app. apply last_snoc.
    + unfold od_keys. rewrite fmap_app. apply last_snoc.
  - rewrite (lru_cache_hit _ _ _ _ _ H). reflexivity.
  - rewrite (lru_cache_hit _ _ _ _ _ H). reflexivity.
  - rewrite (lru_cache_hit _ _ _ _ _ H). reflexivity.
  - intros key s Hlen.
    destruct (od_get key (cache s)) as [w|] eqn:Hg.
    + rewrite (lru_cache_hit _ _ _ _ _ Hg). simpl.
      rewrite length_app. simpl. pose proof (od_del_length _ _ _ Hg). lia.
    + destruct (f key) as [v|e|] eqn:Hf.
      * rewrite (lru_cache_miss _ _ _ _ _ Hg Hf). simpl.
        destruct (decide _) as [Hlt|Hge].
        -- destruct (cache s) as [|p rest]; simpl in *; [lia|].
           rewrite length_app. simpl. lia.
        -- rewrite length_app. simpl. lia.
      * rewrite (lru_cache_fail _ _ _ _ Hg) by (intros v; rewrite Hf; discriminate).
        exact Hlen.
      * rewrite (lru_cache_fail _ _ _ _ Hg) by (intros v; rewrite Hf; discriminate).
        exact Hlen.
  - intros key v oldest rest s Hc Hlen Hg Hf.
    rewrite (lru_cache_miss _ _ _ _ _ Hg Hf). simpl.
    rewrite decide_True by lia. rewrite Hc. reflexivity.
  - apply lru_run_keys.
Qed.

End lru_facts.

(** ** The way table *)

Section table_facts.
Variable WayGet : Z → res way_dict.
Implicit Types (ways : list member_dict) (s : way_cache).

Lemma frame_of_rows (l : list (member_dict * list Z)) :
  frame_of_columns ((λ p, ref p.1) <$> l) ((λ p, hd 0 p.2) <$> l)
                   ((λ p, List.last p.2 0) <$> l)
  = (λ p, way_row p.1 p.2) <$> l.
Proof. induction l as [|p l IH]; simpl; [reflexivity|]. f_equal. exact IH. Qed.

Lemma last_default_irrel (l : list Z) (d d' : Z) :
  l ≠ [] → List.last l d = List.last l d'.
Proof.
  induction l as [|x l IH]; [congruence|]. intros _.
  destruct l as [|y l]; [reflexivity|].
  change (List.last (y :: l) d = List.last (y :: l) d').
  apply IH. discriminate.
Qed.

Lemma last_Some_default (l : list Z) (d : Z) :
  l ≠ [] → last l = Some (List.last l d).
Proof.
  induction l as [|x l IH]; [congruence|]. intros _.
  destruct l as [|y l]; [reflexivity|].
  change (last (y :: l) = Some (List.last (y :: l) d)).
  apply IH. discriminate.
Qed.

(** The loop of [get_relation_nodes] appends, to each accumulator, the
    matching column of the members that it keeps. *)
Lemma get_relation_nodes_from_kept ways :
  ∀ (l_way l_begin l_end : list Z) (l_nodes : list (list Z)) s,
    get_relation_nodes_from WayGet ways l_way l_begin l_end l_nodes s
    = ((l_way ++ ((λ p, ref p.1) <$> (kept WayGet ways s).1),
        l_begin ++ ((λ p, hd 0 p.2) <$> (kept WayGet ways s).1),
        l_end ++ ((λ p, List.last p.2 0) <$> (kept WayGet ways s).1),
        l_nodes ++ (kept WayGet ways s).1.*2),
       (kept WayGet ways s).2).
Proof.
  induction ways as [|way ways IH]; intros l_way l_begin l_end l_nodes s;
    cbn [get_relation_nodes_from kept].
  - simpl. rewrite !app_nil_r. reflexivity.
  - destruct (get_way_nodes WayGet way s) as [[[|n0 nd']|] s']; try apply IH.
    rewrite IH. rewrite (last_default_irrel (n0 :: nd') n0 0) by discriminate.
    destruct (kept WayGet ways s') as [l s''].
    cbn [fst snd fmap list_fmap]. rewrite <- !app_assoc. reflexivity.
Qed.

Lemma get_relation_kept ways s :
  get_relation WayGet ways s
  = (((λ p, way_row p.1 p.2) <$> (kept WayGet ways s).1,
      (kept WayGet ways s).1.*2),
     (kept WayGet ways s).2).
Proof.
  unfold get_relation, get_relation_nodes.
  rewrite get_relation_nodes_from_kept. simpl. rewrite frame_of_rows.
  reflexivity.
Qed.

(** The kept members are taken from the input in its order, and each comes
    with a node list that is not empty. *)
Lemma kept_sublist ways s : (kept WayGet ways s).1.*1 `sublist_of` ways.
Proof.
  revert s. induction ways as [|way ways IH]; intros s; simpl.
  - constructor.
  - destruct (get_way_nodes WayGet way s) as [[[|n0 nd']|] s'];
      try (apply sublist_cons; apply IH).
    specialize (IH s'). destruct (kept WayGet ways s') as [l s'']. simpl in *.
    apply sublist_skip. exact IH.
Qed.

Lemma kept_nonempty ways s (way : member_dict) (nd : list Z) :
  (way, nd) ∈ (kept WayGet ways s).1 → nd ≠ [].
Proof.
  revert s. induction ways as [|way0 ways IH]; intros s; simpl.
  - intros Hin. apply elem_of_nil in Hin. contradiction.
  - destruct (get_way_nodes WayGet way0 s) as [[[|n0 nd']|] s'];
      try apply IH.
    specialize (IH s'). destruct (kept WayGet ways s') as [l s'']. simpl in *.
    intros Hin. apply elem_of_cons in Hin as [[= -> ->]|Hin];
      [discriminate|apply IH; exact Hin].
Qed.

(** With a cache that agrees with the remote source, [get_way_nodes]
    answers like the source. *)
Lemma get_way_nodes_coherent (way : member_dict) s :
  coherent WayGet s →
  (get_way_nodes WayGet way s).1
  = match WayGet (ref way) with Val w => Some (nd w) | _ => None end
  ∧ coherent WayGet (get_way_nodes WayGet way s).2.
Proof.
  intros Hco. unfold get_way_nodes, get_way_by_id.
  destruct (lru_cache_coherent 2048 WayGet (ref way) s Hco) as [Hr Hco'].
  destruct (lru_cache 2048 WayGet (ref way) s) as [r s']. simpl in *.
  rewrite <- Hr. destruct r; simpl; split; try reflexivity; exact Hco'.
Qed.

Lemma kept_coherent ways s :
  coherent WayGet s →
  (kept WayGet ways s).1 = remote_table WayGet ways
  ∧ coherent WayGet (kept WayGet ways s).2.
Proof.
  revert s. induction ways as [|way ways IH]; intros s Hco; simpl.
  - split; [reflexivity|exact Hco].
  - destruct (get_way_nodes_coherent way s Hco) as [Hr Hco'].
    destruct (get_way_nodes WayGet way s) as [o s']. simpl in Hr, Hco'.
    destruct (IH s' Hco') as [Hl Hco''].
    unfold remote_table at 1. simpl. fold (remote_table WayGet ways).
    unfold remote_nodes. subst o.
    destruct (WayGet (ref way)) as [w|e|]; simpl;
      [|split; [exact Hl|exact Hco'']..].
    destruct (nd w) as [|n0 nd']; simpl; [split; [exact Hl|exact Hco'']|].
    destruct (kept WayGet ways s') as [l s'']. simpl in *.
    split; [f_equal; exact Hl|exact Hco''].
Qed.

End table_facts.

(** ** The stitcher: what a run returns *)

(** A run that has left the loop is not changed by a larger step budget. *)
Lemma walk_more_fuel (fuel extra : nat) (df : DataFrame) (nodes : list (list Z)) :
  ∀ (current_way : option Series) (current_node : Z) (track : list Z),
    walk fuel df nodes current_way current_node track ≠ OutOfFuel →
    walk (fuel + extra) df nodes current_way current_node track
    = walk fuel df nodes current_way current_node track.
Proof.
  induction fuel as [|fuel IH]; intros current_way current_node track Hdone.
  - simpl in Hdone. congruence.
  - simpl in *.
    destruct (next_way df current_way current_node) as [[reversed cw']|e|];
      [|reflexivity..].
    destruct (get_segment df cw') as [seg|e|]; simpl in *; [|reflexivity..].
    destruct (nodes !! seg) as [nd|]; simpl in *; [|reflexivity].
    destruct (index_value (oriented nd reversed) (-1)) as [cn'|e|];
      simpl in *; [|reflexivity..].
    apply IH. exact Hdone.
Qed.

(** With no row at all, neither column matches and the loop is left at
    once. *)
Lemma next_way_empty (current_way : option Series) (current_node : Z) :
  ∃ e, next_way [] current_way current_node = Exc e.
Proof.
  assert (Hnot : series_contains [] current_node = false).
  { unfold series_contains. apply andb_false_iff.
    destruct (Z.leb_spec 0 current_node) as [Hpos|Hneg];
      [right; apply Z.ltb_ge; simpl; lia|left; reflexivity]. }
  unfold next_way, check_node. rewrite Hnot. simpl.
  destruct current_way as [cw|]; simpl.
  - destruct cw as [|[i v] [|p cw]]; simpl; eauto.
  - eauto.
Qed.

(** What a step that matched the end column adds to the track: the
    reversed node list without its last element.  The first element of the
    reversed list, which is the current node, is added again, and the far
    end of the segment is not added. *)
Lemma appended_reversed (nd : list Z) :
  appended (oriented nd true) true = take (length nd - 1) (reverse nd).
Proof.
  unfold appended, oriented. rewrite slice_value_to_last.
  rewrite length_reverse. reflexivity.
Qed.

Lemma appended_forward (nd : list Z) :
  appended (oriented nd false) false = drop 1 nd.
Proof. unfold appended, oriented. apply slice_value_from_1. Qed.


(** ** Boolean indexing with no match and with one match *)

Lemma imap_pair_shift (df : DataFrame) (n : nat) :
  imap ((λ i, pair (n + i)%nat) ∘ S) df = imap (λ i, pair (S n + i)%nat) df.
Proof. apply imap_ext. intros i x _. simpl. f_equal. lia. Qed.

Lemma filter_labelled_none (mask : row → bool) (df : DataFrame) (n : nat) :
  Forall (λ r, mask r = false) df →
  List.filter (λ p, mask p.2) (imap (λ i, pair (n + i)%nat) df) = [].
Proof.
  intros Hdf. revert n. induction Hdf as [|r df Hr _ IH]; intros n;
    [reflexivity|].
  rewrite imap_cons, imap_pair_shift. cbn [List.filter snd].
  rewrite Hr. apply IH.
Qed.

Lemma filter_labelled_one (mask : row → bool) (l1 l2 : DataFrame) (r : row)
    (n : nat) :
  Forall (λ r, mask r = false) l1 → mask r = true →
  Forall (λ r, mask r = false) l2 →
  List.filter (λ p, mask p.2) (imap (λ i, pair (n + i)%nat) (l1 ++ r :: l2))
  = [(n + length l1, r)%nat].
Proof.
  intros H1 Hr H2. revert n. induction H1 as [|r1 l1 Hr1 _ IH]; intros n.
  - cbn [app]. rewrite imap_cons, imap_pair_shift. cbn [List.filter snd].
    rewrite Hr. rewrite (filter_labelled_none _ _ _ H2). reflexivity.
  - cbn [app]. rewrite imap_cons, imap_pair_shift. cbn [List.filter snd].
    rewrite Hr1. rewrite IH. cbn [length]. f_equal. f_equal. lia.
Qed.

Lemma select_none (mask : row → bool) (df : DataFrame) :
  Forall (λ r, mask r = false) df → select mask df = [].
Proof. intros Hdf. exact (filter_labelled_none mask df 0 Hdf). Qed.

Lemma select_one (mask : row → bool) (l1 l2 : DataFrame) (r : row) :
  Forall (λ r, mask r = false) l1 → mask r = true →
  Forall (λ r, mask r = false) l2 →
  select mask (l1 ++ r :: l2) = [(length l1, r)].
Proof. intros H1 Hr H2. exact (filter_labelled_one mask l1 l2 r 0 H1 Hr H2). Qed.

(** ** Walking a chain of ways stored in walking direction *)

Lemma NoDup_fmap_others {A B} (f : A → B) (l1 l2 : list A) (x : A) :
  NoDup (f <$> (l1 ++ x :: l2)) →
  Forall (λ y, f y ≠ f x) l1 ∧ Forall (λ y, f y ≠ f x) l2.
Proof.
  rewrite fmap_app, fmap_cons. intros Hnd.
  apply NoDup_app in Hnd as (_ & Hdisj & Hnd).
  apply NoDup_cons in Hnd as [Hx _]. split; apply Forall_forall; intros y Hy Heq.
  - apply (Hdisj (f y)); [apply list_elem_of_fmap_2; exact Hy|].
    rewrite Heq. apply list_elem_of_here.
  - apply Hx. rewrite <- Heq. apply list_elem_of_fmap_2. exact Hy.
Qed.

Lemma NoDup_fmap_same {A B} (f : A → B) (l : list A) (x y : A) :
  NoDup (f <$> l) → x ∈ l → y ∈ l → f x = f y → x = y.
Proof.
  intros Hnd Hx Hy Heq.
  apply list_elem_of_split in Hx as (l1 & l2 & ->).
  destruct (NoDup_fmap_others f l1 l2 x Hnd) as [H1 H2].
  apply elem_of_app in Hy as [Hy|Hy].
  - rewrite Forall_forall in H1. destruct (H1 y Hy). congruence.
  - apply elem_of_cons in Hy as [->|Hy]; [reflexivity|].
    rewrite Forall_forall in H2. destruct (H2 y Hy). congruence.
Qed.

Lemma Forall_sublist {A} (P : A → Prop) (l k : list A) :
  l `sublist_of` k → Forall P k → Forall P l.
Proof.
  induction 1 as [|x l k _ IH|x l k _ IH]; intros Hk.
  - constructor.
  - apply Forall_cons in Hk as [Hx Hk]. constructor; [exact Hx|apply IH, Hk].
  - apply Forall_cons in Hk as [_ Hk]. apply IH, Hk.
Qed.

Section one_step.
Variable ways : list (Z * list Z).
Hypothesis ways_ids : NoDup (way <$> table_of ways).
Hypothesis ways_begins : NoDup (begin <$> table_of ways).

(** At the begin node of a way of the table, with another way (or none)
    used last, the begin column matches that way's row and no other, and
    [get_segment] finds the row's index. *)
Lemma forward_step (sg : Z * list Z) (current_way : option Series)
    (current_node : Z) :
  sg ∈ ways → head sg.2 = Some current_node →
  series_contains (table_of ways) current_node = false →
  current_way = None
  ∨ (∃ i way_id, current_way = Some [(i, way_id)] ∧ way_id ≠ sg.1) →
  ∃ j, ways !! j = Some sg
       ∧ next_way (table_of ways) current_way current_node
         = Val (false, [(j, sg.1)])
       ∧ get_segment (table_of ways) [(j, sg.1)] = Val j.
Proof.
  intros Hin Hhead Hlabel Hlast.
  apply list_elem_of_split in Hin as (l1 & l2 & Hways).
  assert (Hbegin : begin (segment_row sg) = current_node).
  { simpl. destruct sg.2; simpl in *; congruence. }
  assert (Hdf : table_of ways
                = table_of l1 ++ segment_row sg :: table_of l2).
  { rewrite Hways. unfold table_of. rewrite fmap_app. reflexivity. }
  pose proof ways_ids as Hids. pose proof ways_begins as Hbegins.
  rewrite Hdf in Hids, Hbegins.
  destruct (NoDup_fmap_others way _ _ _ Hids) as [Hid1 Hid2].
  destruct (NoDup_fmap_others begin _ _ _ Hbegins) as [Hb1 Hb2].
  exists (length l1). split; [|split].
  - rewrite Hways. apply list_lookup_middle. reflexivity.
  - unfold next_way, check_node. rewrite Hlabel. cbn [negb].
    assert (Hsel : ∀ mask : row → bool,
              (∀ r, begin r ≠ current_node → mask r = false) →
              mask (segment_row sg) = true →
              way_of (select mask (table_of ways)) = [(length l1, sg.1)]).
    { intros mask Hothers Hthis. rewrite Hdf.
      rewrite (select_one mask (table_of l1) (table_of l2) (segment_row sg)).
      - unfold table_of at 1. rewrite length_fmap. reflexivity.
      - eapply Forall_impl; [exact Hb1|]. intros r Hr. apply Hothers. congruence.
      - exact Hthis.
      - eapply Forall_impl; [exact Hb2|]. intros r Hr. apply Hothers. congruence. }
    destruct Hlast as [->|(i & way_id & -> & Hne)].
    + cbn [mbind res_bind mret res_ret].
      rewrite (Hsel (λ r, cell col_begin r =? current_node)).
      * reflexivity.
      * intros r Hr. apply Z.eqb_neq. exact Hr.
      * apply Z.eqb_eq. exact Hbegin.
    + cbn [series_int mbind res_bind mret res_ret].
      rewrite (Hsel (λ r, negb (way r =? way_id)
                          && (cell col_begin r =? current_node))).
      * reflexivity.
      * intros r Hr. apply andb_false_iff. right. apply Z.eqb_neq. exact Hr.
      * apply andb_true_iff. split.
        -- apply negb_true_iff, Z.eqb_neq. simpl. congruence.
        -- apply Z.eqb_eq. exact Hbegin.
  - unfold get_segment. cbn [series_int mbind res_bind]. rewrite Hdf.
    rewrite (select_one _ (table_of l1) (table_of l2) (segment_row sg)).
    + unfold table_of at 1. rewrite length_fmap. reflexivity.
    + eapply Forall_impl; [exact Hid1|]. intros r Hr.
      apply Z.eqb_neq. exact Hr.
    + apply Z.eqb_eq. reflexivity.
    + eapply Forall_impl; [exact Hid2|]. intros r Hr.
      apply Z.eqb_neq. exact Hr.
Qed.

(** At a node that begins no row and ends only the row of the way used
    last, neither column matches: the loop is left. *)
Lemma final_step (i : nat) (way_id current_node : Z) :
  series_contains (table_of ways) current_node = false →
  Forall (λ r, begin r ≠ current_node) (table_of ways) →
  Forall (λ r, end_ r = current_node → way r = way_id) (table_of ways) →
  ∃ e, next_way (table_of ways) (Some [(i, way_id)]) current_node = Exc e.
Proof.
  intros Hlabel Hbegin Hend. unfold next_way, check_node. rewrite Hlabel.
  cbn [negb series_int mbind res_bind mret res_ret].
  rewrite select_none.
  2: { eapply Forall_impl; [exact Hbegin|]. intros r Hr.
       apply andb_false_iff. right. apply Z.eqb_neq. exact Hr. }
  cbn [way_of fmap list_fmap empty try_except bare_raise].
  rewrite select_none.
  2: { eapply Forall_impl; [exact Hend|]. intros r Hr.
       destruct (Z.eqb_spec (cell col_end r) current_node) as [Heq|Hne].
       - rewrite andb_true_r. apply negb_false_iff, Z.eqb_eq. apply Hr, Heq.
       - apply andb_false_r. }
  cbn. eauto.
Qed.

(** One forward step of [walk]. *)
Lemma walk_forward_step (fuel : nat) (sg : Z * list Z)
    (current_way : option Series) (current_node : Z) (track : list Z) :
  sg ∈ ways → head sg.2 = Some current_node → (2 ≤ length sg.2)%nat →
  series_contains (table_of ways) current_node = false →
  current_way = None
  ∨ (∃ i way_id, current_way = Some [(i, way_id)] ∧ way_id ≠ sg.1) →
  ∃ j, walk (S fuel) (table_of ways) (node_lists_of ways) current_way
         current_node track
       = walk fuel (table_of ways) (node_lists_of ways) (Some [(j, sg.1)])
           (List.last sg.2 0) (track ++ drop 1 sg.2).
Proof.
  intros Hin Hhead Hlen Hlabel Hlast.
  destruct (forward_step sg current_way current_node Hin Hhead Hlabel Hlast)
    as (j & Hj & Hnext & Hseg).
  assert (Hnode : node_lists_of ways !! j = Some sg.2).
  { unfold node_lists_of. rewrite list_lookup_fmap, Hj. reflexivity. }
  exists j. cbn [walk]. rewrite Hnext, Hseg. cbn [mbind res_bind].
  rewrite Hnode. cbn [from_option mbind res_bind].
  change (oriented sg.2 false) with sg.2.
  assert (Hne : sg.2 ≠ []) by (destruct sg.2; simpl in *; [lia|discriminate]).
  rewrite index_value_last, (last_Some_default _ 0 Hne).
  cbn [from_option mbind res_bind].
  unfold appended. rewrite slice_value_from_1. reflexivity.
Qed.

(** Walking the rest of a chain after some way has been used. *)
Lemma walk_chain (extra : nat) (todo : list (Z * list Z)) :
  ∀ (j : nat) (way_id current_node : Z) (track : list Z),
    linked current_node todo →
    Forall (λ sg, sg ∈ ways) todo →
    NoDup (way_id :: todo.*1) →
    Forall (λ p, series_contains (table_of ways) p = false)
      (current_node :: ((λ sg, List.last sg.2 0) <$> todo)) →
    Forall (λ r, begin r ≠ (final current_node way_id todo).1) (table_of ways) →
    Forall (λ r, end_ r = (final current_node way_id todo).1
                 → way r = (final current_node way_id todo).2)
      (table_of ways) →
    walk (S (length todo) + extra) (table_of ways) (node_lists_of ways)
      (Some [(j, way_id)]) current_node track
    = Val (track ++ mjoin (drop 1 <$> todo.*2)).
Proof.
  induction todo as [|sg rest IH];
    intros j way_id current_node track Hlinked Hin Hids Hlabels Hfb Hfe.
  - apply Forall_cons in Hlabels as [Hlabel _]. simpl in Hfb, Hfe.
    destruct (final_step j way_id current_node Hlabel Hfb Hfe) as [e He].
    cbn [length Nat.add walk]. rewrite He. cbn. rewrite app_nil_r. reflexivity.
  - destruct Hlinked as (Hhead & Hlen & Hlinked).
    apply Forall_cons in Hin as [Hsg Hin].
    apply Forall_cons in Hlabels as [Hlabel Hlabels].
    apply NoDup_cons in Hids as [Hnew Hids].
    destruct (walk_forward_step (S (length rest) + extra) sg
                (Some [(j, way_id)]) current_node track Hsg Hhead Hlen Hlabel)
      as [j' Hstep].
    { right. exists j, way_id. split; [reflexivity|].
      intros ->. apply Hnew. apply list_elem_of_here. }
    change (S (length (sg :: rest)) + extra)%nat
      with (S (S (length rest) + extra)).
    rewrite Hstep.
    rewrite (IH j' sg.1 (List.last sg.2 0) (track ++ drop 1 sg.2)
               Hlinked Hin Hids Hlabels Hfb Hfe).
    cbn [fmap list_fmap mjoin list_join snd]. rewrite app_assoc. reflexivity.
Qed.

End one_step.

(** ** The end points of a chain *)

Lemma last_in_tail (l : list Z) :
  (2 ≤ length l)%nat → [List.last l 0] `sublist_of` drop 1 l.
Proof.
  destruct l as [|x [|y l]]; cbn [length]; try lia. intros _.
  change (drop 1 (x :: y :: l)) with (y :: l).
  change (List.last (x :: y :: l) 0) with (List.last (y :: l) 0).
  assert (Hne : y :: l ≠ []) by discriminate.
  rewrite (app_removelast_last 0 Hne) at 2.
  apply sublist_inserts_l. reflexivity.
Qed.

Lemma chain_ends_sublist (start : Z) (chain : list (Z * list Z)) :
  linked start chain →
  (end_ <$> table_of chain) `sublist_of` mjoin (drop 1 <$> chain.*2).
Proof.
  revert start. induction chain as [|sg rest IH]; intros start Hlinked.
  - constructor.
  - destruct Hlinked as (_ & Hlen & Hlinked).
    change ([List.last sg.2 0] ++ (end_ <$> table_of rest)
            `sublist_of` drop 1 sg.2 ++ mjoin (drop 1 <$> rest.*2)).
    apply sublist_app; [apply last_in_tail; exact Hlen|].
    eapply IH. exact Hlinked.
Qed.

Lemma chain_begins_ends (start way_id : Z) (chain : list (Z * list Z)) :
  linked start chain →
  (begin <$> table_of chain) ++ [(final start way_id chain).1]
  = start :: (end_ <$> table_of chain).
Proof.
  revert start way_id. induction chain as [|sg rest IH];
    intros start way_id Hlinked; [reflexivity|].
  destruct Hlinked as (Hhead & _ & Hlinked).
  change (table_of (sg :: rest)) with (segment_row sg :: table_of rest).
  change (final start way_id (sg :: rest))
    with (final (List.last sg.2 0) sg.1 rest).
  rewrite !fmap_cons, <- app_comm_cons. rewrite (IH _ sg.1 Hlinked).
  simpl. destruct sg.2; simpl in *; congruence.
Qed.

Lemma chain_final_way (current_node way_id : Z) (chain : list (Z * list Z)) :
  chain ≠ [] →
  ∃ sg, sg ∈ chain
        ∧ final current_node way_id chain = (List.last sg.2 0, sg.1).
Proof.
  revert current_node way_id. induction chain as [|sg rest IH];
    intros current_node way_id Hne; [congruence|].
  destruct rest as [|sg' rest'].
  - exists sg. split; [apply list_elem_of_here|reflexivity].
  - destruct (IH (List.last sg.2 0) sg.1) as (sgl & Hin & Hfin);
      [discriminate|].
    exists sgl. split; [apply list_elem_of_further; exact Hin|exact Hfin].
Qed.

(** For a table that holds the ways of a linear chain, in any order and
    each stored in walking direction, the stitcher started at the chain's
    first node returns the nodes of the chain in walking order, each once.
    The hypotheses: the ways are linked end to begin and have at least two
    nodes; way ids are distinct; no node occurs twice along the chain; and
    no node id of the chain is a row label of the table. *)
Lemma forward_chain_track (ways chain : list (Z * list Z)) (start : Z)
    (extra : nat) :
  ways ≡ₚ chain →
  linked start chain →
  NoDup chain.*1 →
  NoDup (walk_points start chain) →
  Forall (λ p, series_contains (table_of ways) p = false)
    (walk_points start chain) →
  reconstruct (S (length chain) + extra) (table_of ways) (node_lists_of ways)
    start
  = Val (walk_points start chain).
Proof.
  intros Hperm Hlinked Hids Hnodup Hlabels. rewrite reconstruct_walk.
  destruct chain as [|sg rest].
  - apply Permutation_nil_r in Hperm as ->. cbn [length Nat.add walk].
    destruct (next_way_empty None start) as [e He].
    unfold table_of. cbn [fmap list_fmap]. rewrite He. reflexivity.
  - (* distinct way ids, begin nodes and end nodes in the table *)
    assert (Hpt : table_of ways ≡ₚ table_of (sg :: rest))
      by (unfold table_of; rewrite Hperm; reflexivity).
    assert (Hjunctions : (start :: (end_ <$> table_of (sg :: rest)))
                         `sublist_of` walk_points start (sg :: rest)).
    { unfold walk_points. apply sublist_skip.
      eapply chain_ends_sublist. exact Hlinked. }
    pose proof (sublist_NoDup _ _ Hnodup Hjunctions) as Hnd_junctions.
    pose proof (Forall_sublist _ _ _ Hjunctions Hlabels) as Hlab_junctions.
    rewrite <- (chain_begins_ends start 0 _ Hlinked) in Hnd_junctions.
    apply NoDup_app in Hnd_junctions as (Hnd_begins & Hfin_begins & _).
    assert (Hnd_ends : NoDup (end_ <$> table_of (sg :: rest))).
    { eapply sublist_NoDup; [exact Hnodup|].
      unfold walk_points. apply sublist_cons.
      eapply chain_ends_sublist. exact Hlinked. }
    assert (Hw_ids : NoDup (way <$> table_of ways)).
    { rewrite Hpt. unfold table_of. rewrite <- list_fmap_compose. exact Hids. }
    assert (Hw_begins : NoDup (begin <$> table_of ways))
      by (rewrite Hpt; exact Hnd_begins).
    assert (Hmember : ∀ x, x ∈ ways ↔ x ∈ sg :: rest)
      by (intros x; rewrite Hperm; reflexivity).
    destruct Hlinked as (Hhead & Hlen & Hlinked).
    apply Forall_cons in Hlab_junctions as [Hlab_start Hlab_ends].
    (* the first step *)
    destruct (walk_forward_step ways Hw_ids Hw_begins
                (S (length rest) + extra) sg None start [start])
      as [j Hstep]; try assumption.
    { apply Hmember, list_elem_of_here. }
    { left. reflexivity. }
    change (S (length (sg :: rest)) + extra)%nat
      with (S (S (length rest) + extra)).
    rewrite Hstep.
    (* the rest of the chain *)
    rewrite (walk_chain ways Hw_ids Hw_begins extra rest j sg.1
               (List.last sg.2 0) ([start] ++ drop 1 sg.2)).
    + reflexivity.
    + exact Hlinked.
    + apply Forall_forall. intros x Hx. apply Hmember.
      apply list_elem_of_further. exact Hx.
    + exact Hids.
    + unfold table_of in Hlab_ends.
      rewrite <- list_fmap_compose in Hlab_ends. exact Hlab_ends.
    + change (final (List.last sg.2 0) sg.1 rest)
        with (final start 0 (sg :: rest)).
      apply Forall_forall. intros r Hr Heq.
      rewrite Hpt in Hr.
      eapply Hfin_begins; [apply list_elem_of_fmap_2; exact Hr|].
      rewrite Heq. apply list_elem_of_here.
    + change (final (List.last sg.2 0) sg.1 rest)
        with (final start 0 (sg :: rest)).
      destruct (chain_final_way start 0 (sg :: rest)) as (sgl & Hsgl & ->);
        [discriminate|].
      apply Forall_forall. intros r Hr Heq. rewrite Hpt in Hr.
      simpl in Heq |- *.
      assert (Hlast : segment_row sgl ∈ table_of (sg :: rest))
        by (apply list_elem_of_fmap_2; exact Hsgl).
      rewrite (NoDup_fmap_same end_ _ r (segment_row sgl) Hnd_ends Hr Hlast Heq).
      reflexivity.
Qed.

(** The chain 101-102-103-104-105 of three ways, held by the table in
    another order, walked from its first node. *)
Example forward_chain_example :
  reconstruct 4 (table_of [(2, [103; 104]); (3, [104; 105]); (1, [101; 102; 103])])
    (node_lists_of [(2, [103; 104]); (3, [104; 105]); (1, [101; 102; 103])]) 101
  = Val [101; 102; 103; 104; 105].
Proof.
  apply (forward_chain_track
           [(2, [103; 104]); (3, [104; 105]); (1, [101; 102; 103])]
           [(1, [101; 102; 103]); (2, [103; 104]); (3, [104; 105])] 101 0).
  - etransitivity; [apply Permutation_skip, Permutation_swap|].
    apply Permutation_swap.
  - simpl. repeat split; lia.
  - apply (bool_decide_unpack _). vm_compute. reflexivity.
  - apply (bool_decide_unpack _). vm_compute. reflexivity.
  - repeat constructor.
Qed.

(** ** When the stitcher raises *)

Lemma select_elem (mask : row → bool) (df : DataFrame) (i : nat) (r : row) :
  (i, r) ∈ select mask df ↔ df !! i = Some r ∧ mask r = true.
Proof.
  unfold select. rewrite list_elem_of_In, filter_In, <- list_elem_of_In.
  rewrite elem_of_lookup_imap. simpl. split.
  - intros [(j & y & [= -> ->] & Hj) Hm]. split; assumption.
  - intros [Hi Hm]. split; [exists i, r; split; [reflexivity|exact Hi]|exact Hm].
Qed.

(** Every way id that [check_node] returns is the way of a row. *)
Lemma check_node_ways (df : DataFrame) (current_way : option Series)
    (current_node : Z) (node : column) (ways : Series) :
  check_node df current_way current_node node = Val ways →
  ways ≠ []
  ∧ ∀ i w, (i, w) ∈ ways → ∃ r, df !! i = Some r ∧ way r = w.
Proof.
  unfold check_node. destruct (negb _); [|discriminate].
  assert (Hsel : ∀ mask,
            (if empty (way_of (select mask df)) then bare_raise
             else mret (way_of (select mask df))) = Val ways →
            ways ≠ []
            ∧ ∀ i w, (i, w) ∈ ways → ∃ r, df !! i = Some r ∧ way r = w).
  { intros mask Hret.
    destruct (way_of (select mask df)) as [|p s] eqn:Hs; [discriminate|].
    injection Hret as <-. split; [discriminate|].
    intros i w Hin. rewrite <- Hs in Hin. unfold way_of in Hin.
    apply list_elem_of_fmap in Hin as ([i' r] & [= -> ->] & Hin).
    apply select_elem in Hin as [Hi _]. exists r. split; [exact Hi|reflexivity]. }
  destruct current_way as [cw|]; cbn [mbind res_bind mret res_ret].
  - destruct (series_int cw) as [w| |]; cbn [mbind res_bind];
      [apply Hsel|discriminate..].
  - apply Hsel.
Qed.

(** On a table whose node lists are aligned with its rows and not empty,
    the only exception that a run can raise is the TypeError of
    [int(current_way)] on a series of several ways: a step in which the
    current node matches more than one row. *)
Lemma walk_raises_only_TypeError (fuel : nat) (df : DataFrame)
    (nodes : list (list Z)) :
  length nodes = length df → Forall (λ nd, nd ≠ []) nodes →
  ∀ (current_way : option Series) (current_node : Z) (track : list Z) e,
    walk fuel df nodes current_way current_node track = Exc e →
    e = TypeError.
Proof.
  intros Hlen Hne.
  induction fuel as [|fuel IH]; intros current_way current_node track e;
    [discriminate|].
  cbn [walk].
  destruct (next_way df current_way current_node) as [[reversed cw']|e'|] eqn:Hnext;
    [|discriminate..].
  assert (Hcw : cw' ≠ []
                ∧ ∀ i w, (i, w) ∈ cw' → ∃ r, df !! i = Some r ∧ way r = w).
  { unfold next_way, try_except in Hnext.
    destruct (check_node df current_way current_node col_begin) as [s| |] eqn:Hb;
      cbn [mbind res_bind mret res_ret] in Hnext.
    - injection Hnext as <- <-. eapply check_node_ways. exact Hb.
    - destruct (check_node df current_way current_node col_end) as [s| |] eqn:He;
        cbn [mbind res_bind mret res_ret] in Hnext; try discriminate.
      injection Hnext as <- <-. eapply check_node_ways. exact He.
    - discriminate. }
  destruct Hcw as [_ Hrows]. unfold get_segment.
  destruct cw' as [|[i w] [|p cw']]; cbn [series_int mbind res_bind];
    [intros [= <-]; reflexivity| |intros [= <-]; reflexivity].
  destruct (Hrows i w (list_elem_of_here _ _)) as (r & Hi & Hw).
  destruct (select (λ r0, way r0 =? w) df) as [|[k rk] sel] eqn:Hsel.
  - assert (Hin : (i, r) ∈ select (λ r0, way r0 =? w) df).
    { apply select_elem. split; [exact Hi|]. apply Z.eqb_eq. exact Hw. }
    rewrite Hsel in Hin. apply elem_of_nil in Hin. contradiction.
  - assert (Hk : df !! k = Some rk).
    { eapply (proj1 (select_elem (λ r0, way r0 =? w) df k rk)).
      rewrite Hsel. apply list_elem_of_here. }
    destruct (nodes !! k) as [nd|] eqn:Hnd.
    2: { apply lookup_ge_None in Hnd. apply lookup_lt_Some in Hk. lia. }
    cbn [mbind res_bind]. rewrite Hnd. cbn [from_option mbind res_bind].
    assert (Hnd_ne : oriented nd reversed ≠ []).
    { rewrite Forall_forall in Hne.
      pose proof (Hne nd (list_elem_of_lookup_2 _ _ _ Hnd)) as Hn.
      unfold oriented. destruct reversed; [|exact Hn].
      intros Hr. apply Hn. apply (f_equal length) in Hr.
      rewrite length_reverse in Hr. destruct nd; [reflexivity|discriminate]. }
    cbv zeta. rewrite index_value_last, (last_Some_default _ 0 Hnd_ne).
    cbn [from_option mbind res_bind]. apply IH.
Qed.

(** ** The stitcher: empty table, and what it leaves untouched *)

(** C9.  For every start node, the track built from an empty way table is
    the one-element list holding the start node: the loop is left in its
    first iteration, without an error.  This holds for the stitcher run on
    an empty table and for [create_track_points] on a relation without
    members. *)
Theorem empty_table_track (fuel : nat) (start_node : Z) :
  (∀ l_nodes, reconstruct (S fuel) [] l_nodes start_node = Val [start_node])
  ∧ (∀ WayGet id s,
       (create_track_points WayGet (S fuel) (Relation id []) start_node s).1
       = Val [start_node]).
Proof.
  assert (Hempty : ∀ l_nodes,
            reconstruct (S fuel) [] l_nodes start_node = Val [start_node]).
  { intros l_nodes. rewrite reconstruct_walk. simpl.
    destruct (next_way_empty None start_node) as [e ->]. reflexivity. }
  split; [exact Hempty|].
  intros WayGet id s. unfold create_track_points, get_relation_members.
  simpl. apply Hempty.
Qed.

(** C10.  The stitcher leaves every list object that existed before the
    call as it was: the store after the run is the store before it,
    followed by the objects made during the run (the track, the copies of
    node lists, the slices).  In particular the node lists of the table
    keep their contents, also those walked in reverse, because
    [get_nodes] reverses its own copy.  The data frame is a value that the
    loop only reads. *)
Theorem stitch_frame (fuel : nat) (df : DataFrame) (l_nodes : list loc)
    (start_node : Z) (h : store) :
  Forall (λ r, (r < length h)%nat) l_nodes →
  (∃ made, (stitch fuel df l_nodes start_node h).2 = h ++ made)
  ∧ contents (stitch fuel df l_nodes start_node h).2 l_nodes
    = contents h l_nodes.
Proof.
  intros Hnodes.
  assert (Hmade : ∃ made, (stitch fuel df l_nodes start_node h).2 = h ++ made).
  { unfold stitch, new_list, mbind at 1, pym_bind at 1.
    destruct (track_loop_walk fuel df l_nodes h Hnodes None start_node
                [start_node] []) as (track' & extra' & Hrun & _).
    rewrite Hrun. simpl. eauto. }
  split; [exact Hmade|].
  destruct Hmade as [made ->]. unfold contents.
  apply Forall_fmap_ext. eapply Forall_impl; [exact Hnodes|].
  intros r Hr. simpl. rewrite lookup_app_l by exact Hr. reflexivity.
Qed.

Lemma stitch_frame_witness :
  Forall (λ r, (r < 3)%nat) [0; 1; 2]%nat
  ∧ ∃ made,
      (stitch 10 [Row 1 101 103; Row 2 103 104; Row 3 105 104] [0; 1; 2]%nat 101
         [[101; 102; 103]; [103; 104]; [105; 104]]).2
      = [[101; 102; 103]; [103; 104]; [105; 104]] ++ made.
Proof.
  assert (Hrefs : Forall (λ r, (r < 3)%nat) [0; 1; 2]%nat)
    by (repeat constructor).
  split; [exact Hrefs|].
  exact (proj1 (stitch_frame 10 [Row 1 101 103; Row 2 103 104; Row 3 105 104]
                  [0; 1; 2]%nat 101 [[101; 102; 103]; [103; 104]; [105; 104]]
                  Hrefs)).
Defined.

(** ** The stitcher on concrete tables *)

Lemma reconstruct_more_fuel (fuel extra : nat) (df : DataFrame)
    (l_nodes : list (list Z)) (start_node : Z) :
  reconstruct fuel df l_nodes start_node ≠ OutOfFuel →
  reconstruct (fuel + extra) df l_nodes start_node
  = reconstruct fuel df l_nodes start_node.
Proof. rewrite !reconstruct_walk. apply walk_more_fuel. Qed.

(** Evaluates a run of the stitcher on a concrete table, for every step
    budget from the one given on. *)
Ltac run_stitcher :=
  rewrite reconstruct_more_fuel by (vm_compute; discriminate);
  vm_compute; reflexivity.

(** C3.  The scenario W1 = [A,B,C], W2 = [C,D], W3 = [E,D] with
    A..E = 101..105 and start node A.  W3 is reached through its end node
    D and is walked in reverse, and the step adds D a second time instead
    of E: the run returns [A,B,C,D,D], not [A,B,C,D,E]. *)
Theorem scenario_three_ways :
  (∀ extra,
     reconstruct (4 + extra) [Row 1 101 103; Row 2 103 104; Row 3 105 104]
       [[101; 102; 103]; [103; 104]; [105; 104]] 101
     = Val [101; 102; 103; 104; 104])
  ∧ next_way [Row 1 101 103; Row 2 103 104; Row 3 105 104]
      (Some [(1%nat, 2)]) 104
    = Val (true, [(2%nat, 3)]).
Proof. split; [intros extra; run_stitcher|vm_compute; reflexivity]. Qed.

(** C1.  A chain of two segments that share the node 11, the second one
    stored from its far end: W1 = [10,11], W2 = [12,11].  Walked from the
    true end 10, the run returns [10,11,11]: node 11 twice, node 12 not at
    all.  (For chains whose ways are all stored in walking direction the
    result is the chain's nodes in walking order: [forward_chain_track].) *)
Theorem chain_with_reversed_way (extra : nat) :
  reconstruct (3 + extra) [Row 1 10 11; Row 2 12 11] [[10; 11]; [12; 11]] 10
  = Val [10; 11; 11].
Proof. run_stitcher. Qed.

(** C2.  One way W = [21,20] entered through its end node 20.  The step
    works on the reversed list [20,21], adds its elements up to but not
    including the last one, and moves the current node to 21: the track is
    [20,20], with the junction node repeated and the node 21 missing.  In
    general a reversed step adds the reversed list without its last
    element. *)
Theorem reversed_step_repeats_node :
  (∀ extra, reconstruct (2 + extra) [Row 1 21 20] [[21; 20]] 20 = Val [20; 20])
  ∧ ∀ nd, appended (oriented nd true) true
          = take (length nd - 1) (reverse nd).
Proof. split; [intros extra; run_stitcher|exact appended_reversed]. Qed.

(** C4.  After W1 = [10,11] the current node 11 is the begin node of two
    further rows, W2 = [11,12] and W3 = [11,13].  The run does not go on
    with the earlier row W2: [check_node] returns the series of both ways,
    and [get_segment] raises TypeError on it. *)
Theorem junction_after_first_way :
  (∀ extra,
     reconstruct (2 + extra) [Row 1 10 11; Row 2 11 12; Row 3 11 13]
       [[10; 11]; [11; 12]; [11; 13]] 10
     = Exc TypeError)
  ∧ next_way [Row 1 10 11; Row 2 11 12; Row 3 11 13] (Some [(0%nat, 1)]) 11
    = Val (false, [(1%nat, 2); (2%nat, 3)]).
Proof. split; [intros extra; run_stitcher|vm_compute; reflexivity]. Qed.

(** C5.  Two rows that both begin at the start node: the very first step
    finds two matching rows and the run raises TypeError instead of
    returning a track. *)
Theorem junction_at_start_raises (extra : nat) :
  reconstruct (1 + extra) [Row 1 10 11; Row 2 10 12] [[10; 11]; [10; 12]] 10
  = Exc TypeError.
Proof. run_stitcher. Qed.

(** ** The way table: order, alignment, end points *)

Lemma skip_ways_sublist (ways : list member_dict) (value : string) :
  skip_ways ways value `sublist_of` ways.
Proof.
  unfold skip_ways. induction ways as [|way ways IH]; simpl.
  - constructor.
  - destruct (negb _); [apply sublist_skip|apply sublist_cons]; exact IH.
Qed.

Lemma skip_ways_role (ways : list member_dict) (value : string) :
  Forall (λ way, role way ≠ value) (skip_ways ways value).
Proof.
  unfold skip_ways. induction ways as [|way ways IH]; simpl.
  - constructor.
  - destruct (bool_decide (role way = value)) eqn:Hr; simpl; [exact IH|].
    constructor; [|exact IH]. apply bool_decide_eq_false in Hr. exact Hr.
Qed.

Lemma skip_ways_id (ways : list member_dict) (value : string) :
  Forall (λ way, role way ≠ value) ways → skip_ways ways value = ways.
Proof.
  unfold skip_ways. induction 1 as [|way ways Hr _ IH]; simpl; [reflexivity|].
  rewrite bool_decide_eq_false_2 by exact Hr. simpl. f_equal. exact IH.
Qed.

Lemma head_Some_hd (l : list Z) (d : Z) : l ≠ [] → head l = Some (hd d l).
Proof. destruct l; [congruence|reflexivity]. Qed.

(** C8.  The table that [get_relation_members] builds.  With [members]
    the member list after the role filter: the rows are made of members
    taken from [members] in their order; the list of node lists has one
    entry per row; for every row, begin is the first and end is the last
    element of the node list at the same index; and, when the cache agrees
    with the remote source, that node list is the way's node list as the
    source delivers it. *)
Theorem edge_table_aligned (WayGet : Z → res way_dict)
    (relation : relation_dict) (skip : bool) (value : string) (s : way_cache) :
  let members := if skip then skip_ways (member relation) value
                 else member relation in
  let df := (get_relation_members WayGet relation skip value s).1.1 in
  let l_nodes := (get_relation_members WayGet relation skip value s).1.2 in
  members `sublist_of` member relation
  ∧ (skip = true → Forall (λ way, role way ≠ value) members)
  ∧ length l_nodes = length df
  ∧ (∃ kept_members,
       kept_members `sublist_of` members
       ∧ way <$> df = ref <$> kept_members)
  ∧ (∀ i row,
       df !! i = Some row →
       ∃ nd, l_nodes !! i = Some nd
             ∧ head nd = Some (begin row) ∧ last nd = Some (end_ row))
  ∧ (coherent WayGet s →
     ∀ i row nd,
       df !! i = Some row → l_nodes !! i = Some nd →
       ∃ w, WayGet (way row) = Val w ∧ Osm.nd w = nd).
Proof.
  intros members df l_nodes.
  assert (Hrel : get_relation_members WayGet relation skip value s
                 = get_relation WayGet members s) by reflexivity.
  subst df l_nodes. rewrite Hrel, get_relation_kept. simpl.
  set (l := (kept WayGet members s).1).
  split; [|split; [|split; [|split; [|split]]]].
  - subst members. destruct skip; [apply skip_ways_sublist|reflexivity].
  - intros ->. apply skip_ways_role.
  - rewrite !length_fmap. reflexivity.
  - exists (l.*1). split; [apply kept_sublist|].
    rewrite <- !list_fmap_compose. reflexivity.
  - intros i row Hrow.
    apply list_lookup_fmap_Some in Hrow as ([way nd] & -> & Hl).
    exists nd. rewrite list_lookup_fmap, Hl. simpl.
    assert (Hne : nd ≠ []).
    { eapply kept_nonempty. eapply list_elem_of_lookup_2. exact Hl. }
    split; [reflexivity|]. split.
    + apply head_Some_hd. exact Hne.
    + apply last_Some_default. exact Hne.
  - intros Hco i row nd Hrow Hnd.
    apply list_lookup_fmap_Some in Hrow as ([way nd'] & -> & Hl).
    rewrite list_lookup_fmap, Hl in Hnd. simpl in Hnd. injection Hnd as ->.
    assert (Hin : (way, nd) ∈ remote_table WayGet members).
    { destruct (kept_coherent WayGet members s Hco) as [<- _].
      eapply list_elem_of_lookup_2. exact Hl. }
    unfold remote_table in Hin.
    apply list_elem_of_omap in Hin as (way' & _ & Hway').
    unfold remote_nodes in Hway'. simpl.
    destruct (WayGet (ref way')) as [w|e|] eqn:Hw; try discriminate.
    destruct (Osm.nd w) as [|n0 nd0] eqn:Hn; try discriminate.
    simpl in Hway'. injection Hway' as Hway Hnd. subst way nd.
    exists w. split; [exact Hw|exact Hn].
Qed.

Lemma edge_table_aligned_witness :
  coherent Example.WayGet lru_empty
  ∧ ∃ w, Example.WayGet 2 = Val w ∧ nd w = [103; 104].
Proof.
  assert (Hco : coherent Example.WayGet lru_empty).
  { intros k v Hin. apply elem_of_nil in Hin. contradiction. }
  split; [exact Hco|].
  destruct (edge_table_aligned Example.WayGet Example.relation true
              "alternative" lru_empty) as (_ & _ & _ & _ & _ & Hfull).
  exact (Hfull Hco 1%nat (Row 2 103 104) [103; 104] eq_refl eq_refl).
Defined.

(** ** A member whose way cannot be fetched *)

Section dropped_member.
Variable WayGet : Z → res way_dict.

Lemma remote_table_all (ways : list member_dict) :
  Forall (λ way, ∃ w, WayGet (ref way) = Val w ∧ nd w ≠ []) ways →
  (remote_table WayGet ways).*1 = ways.
Proof.
  induction 1 as [|way ways (w & Hw & Hne) _ IH]; [reflexivity|].
  unfold remote_table. simpl. unfold remote_nodes at 1. rewrite Hw.
  destruct (nd w) as [|n0 nd']; [congruence|]. simpl. f_equal. exact IH.
Qed.

Lemma remote_table_failed (before after : list member_dict)
    (failed : member_dict) (e : exn) :
  WayGet (ref failed) = Exc e →
  remote_table WayGet (before ++ failed :: after)
  = remote_table WayGet (before ++ after).
Proof.
  intros Hf. unfold remote_table. rewrite !omap_app. simpl.
  unfold remote_nodes at 2. rewrite Hf. reflexivity.
Qed.

Lemma get_relation_coherent (ways : list member_dict) (s : way_cache) :
  coherent WayGet s →
  (get_relation WayGet ways s).1
  = ((λ p, way_row p.1 p.2) <$> remote_table WayGet ways,
     (remote_table WayGet ways).*2).
Proof.
  intros Hco. rewrite get_relation_kept. simpl.
  destruct (kept_coherent WayGet ways s Hco) as [-> _]. reflexivity.
Qed.

End dropped_member.

(** X23.  The table for a member list in which exactly one member's way
    cannot be fetched, while every other member's way is delivered with at
    least one node, on a cache that agrees with the remote source.
    [get_relation] returns a table (it cannot raise); the table has one
    row less than there are members; its rows are those of the other
    members, in their order; and table and node lists are the ones that
    the member list without the failing member gives. *)
Theorem failed_member_table (WayGet : Z → res way_dict)
    (before after : list member_dict) (failed : member_dict) (e : exn)
    (s : way_cache) :
  coherent WayGet s →
  WayGet (ref failed) = Exc e →
  Forall (λ way, ∃ w, WayGet (ref way) = Val w ∧ nd w ≠ []) (before ++ after) →
  let members := before ++ failed :: after in
  let df := (get_relation WayGet members s).1.1 in
  length df = (length members - 1)%nat
  ∧ way <$> df = ref <$> (before ++ after)
  ∧ (get_relation WayGet members s).1
    = (get_relation WayGet (before ++ after) s).1.
Proof.
  intros Hco Hfail Hothers members df. subst df.
  pose proof (remote_table_all WayGet _ Hothers) as Hall.
  rewrite !get_relation_coherent by exact Hco. cbn [fst snd].
  subst members. rewrite (remote_table_failed WayGet _ _ _ _ Hfail).
  split; [|split].
  - rewrite length_fmap. rewrite <- (length_fmap fst), Hall.
    rewrite !length_app. simpl. lia.
  - rewrite <- Hall at 2. rewrite <- !list_fmap_compose. reflexivity.
  - reflexivity.
Qed.

Lemma failed_member_table_witness :
  length (get_relation Example.WayGet (member Example.relation) lru_empty).1.1
  = 3%nat
  ∧ way <$> (get_relation Example.WayGet (member Example.relation)
               lru_empty).1.1
    = [1; 2; 3].
Proof.
  destruct (failed_member_table Example.WayGet
              [Member "way" 1 EmptyString]
              [Member "way" 2 "forward"; Member "way" 3 EmptyString]
              (Member "way" 9 EmptyString) LookupFailure lru_empty)
    as (Hlen & Hways & _).
  - intros k v Hin. apply elem_of_nil in Hin. contradiction.
  - reflexivity.
  - repeat constructor; eexists; (split; [reflexivity|discriminate]).
  - split; [exact Hlen|exact Hways].
Defined.

(** C6.  The relation of [ExampleFork]: members 1, 9 and 2, where the
    request for way 9 fails and ways 1 = [10,11] and 2 = [10,12] are
    delivered.  Exactly one member's fetch fails.  The table is built
    without an error, has 3 - 1 = 2 rows, and keeps ways 1 and 2 in their
    order, as the claim says.  Reconstruction on the remaining rows does
    not succeed: started at node 10, [create_track_points] finds two rows
    that begin there and raises TypeError, for every step budget. *)
Theorem failed_member_then_fork (extra : nat) :
  (get_relation_members ExampleFork.WayGet ExampleFork.relation true
     "alternative" lru_empty).1
  = ([Row 1 10 11; Row 2 10 12], [[10; 11]; [10; 12]])
  ∧ length (get_relation_members ExampleFork.WayGet ExampleFork.relation true
              "alternative" lru_empty).1.1
    = (length (member ExampleFork.relation) - 1)%nat
  ∧ (create_track_points ExampleFork.WayGet (1 + extra) ExampleFork.relation
       10 lru_empty).1
    = Exc TypeError.
Proof.
  assert (Htable :
    (get_relation_members ExampleFork.WayGet ExampleFork.relation true
       "alternative" lru_empty).1
    = ([Row 1 10 11; Row 2 10 12], [[10; 11]; [10; 12]]))
    by (vm_compute; reflexivity).
  split; [exact Htable|]. split; [rewrite Htable; reflexivity|].
  unfold create_track_points.
  destruct (get_relation_members ExampleFork.WayGet ExampleFork.relation true
              "alternative" lru_empty) as [[df l_nodes] s'].
  cbn [fst] in *. injection Htable as -> ->. run_stitcher.
Qed.

(** ** The memoised lookups *)

(** C7.  Each of the four lookups is the remote request behind a cache of
    its own, of fixed capacity (4096 nodes, 2048 ways, 128 relations by id,
    128 relations by name), with least-recently-used eviction: a key that
    is not cached is requested from the remote source and stored; a cached
    key is answered from the cache without a request and becomes the most
    recently used one; the cache never exceeds its capacity; a new key on a
    full cache evicts exactly the least recently used entry; and after any
    sequence of successful calls the cache holds the most recently used
    keys, up to its capacity. *)
Theorem lookups_memoized {node_dict overpass_result : Type}
    (RelationGet : Z → res relation_dict)
    (OverpassGet : string → res overpass_result)
    (WayGet : Z → res way_dict) (NodeGet : Z → res node_dict) :
  lru_memoized 4096 NodeGet (get_node_by_id NodeGet)
  ∧ lru_memoized 2048 WayGet (get_way_by_id WayGet)
  ∧ lru_memoized 128 RelationGet (get_relation_by_id RelationGet)
  ∧ lru_memoized 128 (λ relation_name, OverpassGet (name_query relation_name))
      (get_relation_by_name OverpassGet).
Proof.
  split; [|split; [|split]]; apply lru_cache_memoized; lia.
Qed.

Lemma lookups_memoized_witness :
  (* the first request for way 1 goes to the remote source *)
  calls (get_way_by_id Example.WayGet 1 lru_empty).2 = [1]
  (* the second one does not, and way 1 is then the most recent entry *)
  ∧ (let s := lru_run 2048 Example.WayGet [1; 2] lru_empty in
     calls (get_way_by_id Example.WayGet 1 s).2 = calls s
     ∧ od_keys (cache (get_way_by_id Example.WayGet 1 s).2) = [2; 1]).
Proof.
  destruct (lookups_memoized (node_dict := unit) (overpass_result := unit)
              (λ _, Exc LookupFailure) (λ _, Exc LookupFailure)
              Example.WayGet (λ _, Exc LookupFailure))
    as (_ & (Hmiss & Hhit & _) & _).
  split.
  - destruct (Hmiss 1 (WayDict 1 [101; 102; 103]) lru_empty eq_refl eq_refl)
      as (_ & Hcalls & _).
    exact Hcalls.
  - assert (Hcached : od_get 1 (cache (lru_run 2048 Example.WayGet [1; 2] lru_empty))
                      = Some (WayDict 1 [101; 102; 103]))
      by (vm_compute; reflexivity).
    destruct (Hhit 1 _ _ Hcached) as (_ & Hcalls & Hcache).
    split; [exact Hcalls|]. rewrite Hcache. vm_compute. reflexivity.
Defined.

(** * Further properties of the stitcher *)

Lemma next_way_row_label (df : DataFrame) (current_way : option Series)
    (current_node : Z) :
  series_contains df current_node = true →
  ∃ e, next_way df current_way current_node = Exc e.
Proof.
  intros Hlabel. unfold next_way, check_node. rewrite Hlabel. simpl. eauto.
Qed.

Lemma series_contains_range (df : DataFrame) (key : Z) :
  series_contains df key = true ↔ 0 ≤ key < Z.of_nat (length df).
Proof.
  unfold series_contains. rewrite andb_true_iff, Z.leb_le, Z.ltb_lt.
  reflexivity.
Qed.

(** X1.  [current_node not in df.begin] tests the row labels of the frame,
    not the begin nodes.  A start node whose id is a row label, that is a
    number from 0 to the number of rows minus one, is therefore never
    matched: the track is the start node alone, whatever the table
    holds. *)
Theorem start_node_row_label (fuel : nat) (df : DataFrame)
    (l_nodes : list (list Z)) (start_node : Z) :
  0 ≤ start_node < Z.of_nat (length df) →
  reconstruct (S fuel) df l_nodes start_node = Val [start_node].
Proof.
  intros Hrange. apply series_contains_range in Hrange.
  rewrite reconstruct_walk. cbn [walk].
  destruct (next_way_row_label df None start_node Hrange) as [e ->].
  reflexivity.
Qed.

Lemma start_node_row_label_witness :
  reconstruct 5 [Row 7 1 20; Row 8 20 30] [[1; 20]; [20; 30]] 1 = Val [1].
Proof.
  apply (start_node_row_label 4 [Row 7 1 20; Row 8 20 30] [[1; 20]; [20; 30]] 1).
  simpl. lia.
Defined.

(** X2.  A start node that is neither the begin nor the end node of any
    row gives the track that holds the start node alone; no error is
    raised. *)
Theorem start_node_unknown (fuel : nat) (df : DataFrame)
    (l_nodes : list (list Z)) (start_node : Z) :
  Forall (λ r, begin r ≠ start_node ∧ end_ r ≠ start_node) df →
  reconstruct (S fuel) df l_nodes start_node = Val [start_node].
Proof.
  intros Hdf. rewrite reconstruct_walk. cbn [walk].
  destruct (series_contains df start_node) eqn:Hlabel.
  - destruct (next_way_row_label df None start_node Hlabel) as [e ->].
    reflexivity.
  - unfold next_way, check_node. rewrite Hlabel.
    cbn [negb mbind res_bind mret res_ret].
    rewrite !select_none.
    + reflexivity.
    + eapply Forall_impl; [exact Hdf|]. intros r [_ Hr].
      apply Z.eqb_neq. exact Hr.
    + eapply Forall_impl; [exact Hdf|]. intros r [Hr _].
      apply Z.eqb_neq. exact Hr.
Qed.

Lemma start_node_unknown_witness :
  reconstruct 5 [Row 7 10 20; Row 8 20 30] [[10; 20]; [20; 30]] 99 = Val [99].
Proof.
  apply (start_node_unknown 4 [Row 7 10 20; Row 8 20 30] [[10; 20]; [20; 30]] 99).
  repeat constructor; simpl; lia.
Defined.

(** What one step adds to the track comes from the node list it works
    on. *)
Lemma appended_subseteq (nd : list Z) (reversed : bool) :
  appended (oriented nd reversed) reversed ⊆ nd.
Proof.
  intros p Hp. unfold appended, oriented in Hp. destruct reversed.
  - rewrite slice_value_to_last in Hp. apply subseteq_take in Hp.
    rewrite elem_of_reverse in Hp. exact Hp.
  - rewrite slice_value_from_1 in Hp. apply subseteq_drop in Hp. exact Hp.
Qed.

Lemma walk_extends (fuel : nat) (df : DataFrame) (nodes : list (list Z)) :
  ∀ (current_way : option Series) (current_node : Z) (track t : list Z),
    walk fuel df nodes current_way current_node track = Val t →
    ∃ more, t = track ++ more
            ∧ Forall (λ p, ∃ nd, nd ∈ nodes ∧ p ∈ nd) more.
Proof.
  induction fuel as [|fuel IH]; intros current_way current_node track t;
    [discriminate|].
  cbn [walk].
  destruct (next_way df current_way current_node) as [[reversed cw']|e|];
    [|intros [= <-]; exists []; rewrite app_nil_r; split; [reflexivity|constructor]
     |discriminate].
  destruct (get_segment df cw') as [seg|e|]; cbn [mbind res_bind];
    [|discriminate..].
  destruct (nodes !! seg) as [nd|] eqn:Hnd; cbn [from_option mbind res_bind];
    [|discriminate].
  cbv zeta.
  destruct (index_value (oriented nd reversed) (-1)) as [cn'|e|];
    cbn [mbind res_bind]; [|discriminate..].
  intros Hrun. destruct (IH _ _ _ _ Hrun) as (more & -> & Hmore).
  exists (appended (oriented nd reversed) reversed ++ more).
  split; [rewrite app_assoc; reflexivity|].
  apply Forall_app. split; [|exact Hmore].
  apply Forall_forall. intros p Hp. exists nd.
  split; [eapply list_elem_of_lookup_2; exact Hnd|].
  apply (appended_subseteq nd reversed). exact Hp.
Qed.

(** X3.  Every track that the stitcher returns begins with the start node,
    and every node after it is taken from one of the table's node lists:
    the walk never makes up a node id. *)
Theorem track_starts_at_start_node (fuel : nat) (df : DataFrame)
    (l_nodes : list (list Z)) (start_node : Z) (track : list Z) :
  reconstruct fuel df l_nodes start_node = Val track →
  ∃ more, track = start_node :: more
          ∧ Forall (λ p, ∃ nd, nd ∈ l_nodes ∧ p ∈ nd) more.
Proof.
  rewrite reconstruct_walk. intros Hrun.
  destruct (walk_extends _ _ _ _ _ _ _ Hrun) as (more & -> & Hmore).
  exists more. split; [reflexivity|exact Hmore].
Qed.

Lemma track_starts_at_start_node_witness :
  ∃ more, [101; 102; 103; 104; 104] = 101 :: more
          ∧ Forall (λ p, ∃ nd, nd ∈ [[101; 102; 103]; [103; 104]; [105; 104]]
                               ∧ p ∈ nd) more.
Proof.
  apply (track_starts_at_start_node 10
           [Row 1 101 103; Row 2 103 104; Row 3 105 104]
           [[101; 102; 103]; [103; 104]; [105; 104]] 101).
  vm_compute. reflexivity.
Defined.

Lemma filter_labelled_values (mask : row → bool) (df : DataFrame) (n : nat) :
  (List.filter (λ p, mask p.2) (imap (λ i, pair (n + i)%nat) df)).*2
  = List.filter mask df.
Proof.
  revert n. induction df as [|r df IH]; intros n; [reflexivity|].
  rewrite imap_cons, imap_pair_shift. cbn [List.filter snd].
  destruct (mask r); [rewrite fmap_cons; cbn [snd]; f_equal|]; apply IH.
Qed.

Lemma select_length (mask : row → bool) (df : DataFrame) :
  length (select mask df) = length (List.filter mask df).
Proof.
  rewrite <- (filter_labelled_values mask df 0), length_fmap. reflexivity.
Qed.

(** X4.  When two or more rows begin at the start node, the first step
    does not choose among them: the run raises TypeError, whatever the
    rows' order and whatever else the table holds. *)
Theorem several_ways_begin_at_start (fuel : nat) (df : DataFrame)
    (l_nodes : list (list Z)) (start_node : Z) :
  series_contains df start_node = false →
  (2 ≤ length (List.filter (λ r, (begin r =? start_node)%Z) df))%nat →
  reconstruct (S fuel) df l_nodes start_node = Exc TypeError.
Proof.
  intros Hlabel Hmany. rewrite reconstruct_walk.
  set (matches := way_of (select (λ r, cell col_begin r =? start_node) df)).
  assert (Hlen : (2 ≤ length matches)%nat).
  { subst matches. unfold way_of. rewrite length_fmap, select_length.
    exact Hmany. }
  apply (walk_junction fuel df l_nodes None start_node [start_node] false
           matches); [|exact Hlen].
  unfold next_way, check_node. rewrite Hlabel.
  cbn [negb mbind res_bind mret res_ret]. fold matches.
  destruct matches as [|p matches]; [simpl in Hlen; lia|reflexivity].
Qed.

Lemma several_ways_begin_at_start_witness :
  reconstruct 3 [Row 1 10 11; Row 2 20 21; Row 3 10 12]
    [[10; 11]; [20; 21]; [10; 12]] 10
  = Exc TypeError.
Proof.
  apply (several_ways_begin_at_start 2 [Row 1 10 11; Row 2 20 21; Row 3 10 12]
           [[10; 11]; [20; 21]; [10; 12]] 10).
  - reflexivity.
  - simpl. lia.
Defined.

(** ** Closed loops *)

Section closed_loop.
Variable ways : list (Z * list Z).
Hypothesis ways_ids : NoDup (way <$> table_of ways).
Hypothesis ways_begins : NoDup (begin <$> table_of ways).
Hypothesis ways_long : Forall (λ sg, (2 ≤ length sg.2)%nat) ways.
Hypothesis ways_labels :
  Forall (λ sg, series_contains (table_of ways) (hd 0 sg.2) = false) ways.
Hypothesis ways_continue :
  Forall (λ sg, ∃ sg', sg' ∈ ways ∧ head sg'.2 = Some (List.last sg.2 0)
                       ∧ sg'.1 ≠ sg.1) ways.

Lemma walk_closed_loop (fuel : nat) :
  ∀ (sg : Z * list Z) (current_way : option Series) (current_node : Z)
    (track : list Z),
    sg ∈ ways → head sg.2 = Some current_node →
    current_way = None
    ∨ (∃ i way_id, current_way = Some [(i, way_id)] ∧ way_id ≠ sg.1) →
    walk fuel (table_of ways) (node_lists_of ways) current_way current_node
      track
    = OutOfFuel.
Proof.
  induction fuel as [|fuel IH]; intros sg current_way current_node track
    Hin Hhead Hlast; [reflexivity|].
  assert (Hlen : (2 ≤ length sg.2)%nat).
  { rewrite Forall_forall in ways_long. apply ways_long, Hin. }
  assert (Hlabel : series_contains (table_of ways) current_node = false).
  { rewrite Forall_forall in ways_labels.
    pose proof (ways_labels sg Hin) as Hl.
    destruct sg.2; simpl in *; congruence. }
  destruct (walk_forward_step ways ways_ids ways_begins fuel sg current_way
              current_node track Hin Hhead Hlen Hlabel Hlast) as [j ->].
  rewrite Forall_forall in ways_continue.
  destruct (ways_continue sg Hin) as (sg' & Hin' & Hhead' & Hne).
  apply (IH sg'); [exact Hin'|exact Hhead'|].
  right. exists j, sg.1. split; [reflexivity|congruence].
Qed.

End closed_loop.

(** X5.  A table in which every way is continued by another way (its last
    node is the first node of a way with a different id), with distinct
    way ids and distinct begin nodes, holds a closed loop.  Started at the
    first node of any of its ways, the stitching loop never leaves: every
    step budget is used up. *)
Theorem closed_loop_never_returns (ways : list (Z * list Z))
    (sg : Z * list Z) (fuel : nat) :
  NoDup (way <$> table_of ways) →
  NoDup (begin <$> table_of ways) →
  Forall (λ sg, (2 ≤ length sg.2)%nat) ways →
  Forall (λ sg, series_contains (table_of ways) (hd 0 sg.2) = false) ways →
  Forall (λ sg, ∃ sg', sg' ∈ ways ∧ head sg'.2 = Some (List.last sg.2 0)
                       ∧ sg'.1 ≠ sg.1) ways →
  sg ∈ ways →
  reconstruct fuel (table_of ways) (node_lists_of ways) (hd 0 sg.2)
  = OutOfFuel.
Proof.
  intros Hids Hbegins Hlong Hlabels Hcont Hin. rewrite reconstruct_walk.
  apply (walk_closed_loop ways Hids Hbegins Hlong Hlabels Hcont fuel sg);
    [exact Hin| |left; reflexivity].
  rewrite Forall_forall in Hlong. pose proof (Hlong sg Hin) as Hlen.
  destruct sg.2; simpl in *; [lia|reflexivity].
Qed.

Lemma closed_loop_never_returns_witness :
  reconstruct 1000 [Row 1 10 11; Row 2 11 12; Row 3 12 10]
    [[10; 11]; [11; 12]; [12; 10]] 10
  = OutOfFuel.
Proof.
  apply (closed_loop_never_returns
           [(1, [10; 11]); (2, [11; 12]); (3, [12; 10])] (1, [10; 11]) 1000).
  - apply (bool_decide_unpack _). vm_compute. reflexivity.
  - apply (bool_decide_unpack _). vm_compute. reflexivity.
  - repeat constructor.
  - repeat constructor.
  - repeat constructor.
    + exists (2, [11; 12]). split; [|split; [reflexivity|discriminate]].
      apply list_elem_of_further, list_elem_of_here.
    + exists (3, [12; 10]). split; [|split; [reflexivity|discriminate]].
      do 2 apply list_elem_of_further. apply list_elem_of_here.
    + exists (1, [10; 11]). split; [|split; [reflexivity|discriminate]].
      apply list_elem_of_here.
  - apply list_elem_of_here.
Defined.

(** ** Which exceptions [create_track_points] can raise *)

(** X6.  Whatever the relation, the remote source and the cache,
    [create_track_points] raises no exception other than the TypeError of
    a step with several matching rows: the table it builds is aligned with
    its node lists, and no node list in it is empty, so neither the row
    lookup nor the indexing of a node list can fail. *)
Theorem create_track_points_raises_only_TypeError
    (WayGet : Z → res way_dict) (fuel : nat) (relation : relation_dict)
    (start_node : Z) (s : way_cache) (e : exn) :
  (create_track_points WayGet fuel relation start_node s).1 = Exc e →
  e = TypeError.
Proof.
  unfold create_track_points, get_relation_members.
  rewrite get_relation_kept. cbn [fst snd]. rewrite reconstruct_walk.
  apply walk_raises_only_TypeError.
  - rewrite !length_fmap. reflexivity.
  - apply Forall_forall. intros nd Hnd.
    apply list_elem_of_fmap in Hnd as ([way nd'] & -> & Hin).
    eapply kept_nonempty. exact Hin.
Qed.

Lemma create_track_points_raises_only_TypeError_witness :
  (create_track_points (λ k, Val (WayDict k [10; 11])) 3
     (Relation 1 [Member "way" 1 EmptyString; Member "way" 2 EmptyString])
     10 lru_empty).1
  = Exc TypeError.
Proof.
  assert (Hexc : ∃ e,
    (create_track_points (λ k, Val (WayDict k [10; 11])) 3
       (Relation 1 [Member "way" 1 EmptyString; Member "way" 2 EmptyString])
       10 lru_empty).1 = Exc e)
    by (eexists; vm_compute; reflexivity).
  destruct Hexc as [e He]. rewrite He. f_equal.
  exact (create_track_points_raises_only_TypeError _ _ _ _ _ _ He).
Defined.

(** ** Chains stored in walking direction *)

(** X7.  For a table that holds the ways of a linear chain, in any row
    order and each stored in walking direction, the stitcher started at
    the chain's first node returns the nodes of the chain in walking
    order, each junction once.  The chain's ways are linked end to begin
    and have at least two nodes, way ids are distinct, no node occurs
    twice along the chain, and no node id of the chain is a row label. *)
Theorem chain_in_walking_direction (ways chain : list (Z * list Z))
    (start : Z) (extra : nat) :
  ways ≡ₚ chain →
  linked start chain →
  NoDup chain.*1 →
  NoDup (walk_points start chain) →
  Forall (λ p, series_contains (table_of ways) p = false)
    (walk_points start chain) →
  reconstruct (S (length chain) + extra) (table_of ways) (node_lists_of ways)
    start
  = Val (walk_points start chain).
Proof. apply forward_chain_track. Qed.

Lemma chain_in_walking_direction_witness :
  reconstruct 4 [Row 2 103 104; Row 3 104 105; Row 1 101 103]
    [[103; 104]; [104; 105]; [101; 102; 103]] 101
  = Val [101; 102; 103; 104; 105].
Proof.
  apply (chain_in_walking_direction
           [(2, [103; 104]); (3, [104; 105]); (1, [101; 102; 103])]
           [(1, [101; 102; 103]); (2, [103; 104]); (3, [104; 105])] 101 0).
  - etransitivity; [apply Permutation_skip, Permutation_swap|].
    apply Permutation_swap.
  - simpl. repeat split; lia.
  - apply (bool_decide_unpack _). vm_compute. reflexivity.
  - apply (bool_decide_unpack _). vm_compute. reflexivity.
  - repeat constructor.
Defined.

(** * Further properties of the memoised lookups *)

Section lru_more.
Context {K V : Type} `{EqDecision K}.
Implicit Types (key : K) (keys : list K) (s : lru_state K V).

Lemma lru_run_snoc (maxsize : nat) (f : K → res V) keys key s :
  lru_run maxsize f (keys ++ [key]) s
  = (lru_cache maxsize f key (lru_run maxsize f keys s)).2.
Proof. unfold lru_run. rewrite foldl_snoc. reflexivity. Qed.

Lemma elem_of_by_last_use keys key : key ∈ by_last_use keys ↔ key ∈ keys.
Proof.
  induction keys as [|k keys IH] using rev_ind.
  - reflexivity.
  - rewrite by_last_use_snoc, !elem_of_app, list_elem_of_filter, IH,
      !list_elem_of_singleton.
    split.
    + intros [[_ Hin]| ->]; [left; exact Hin|right; reflexivity].
    + intros [Hin| ->]; [|right; reflexivity].
      destruct (decide (key = k)) as [->|Hne];
        [right; reflexivity|left; split; assumption].
Qed.

Lemma by_last_use_NoDup_id keys : NoDup keys → by_last_use keys = keys.
Proof.
  induction keys as [|k keys IH] using rev_ind; intros Hnd; [reflexivity|].
  apply NoDup_app in Hnd as (Hkeys & Hdisj & _).
  rewrite by_last_use_snoc, (IH Hkeys). f_equal.
  apply filter_ne_id. intros Hin. apply (Hdisj k Hin), list_elem_of_here.
Qed.

Lemma by_last_use_app (keys1 keys2 : list K) :
  by_last_use (keys1 ++ keys2)
  = filter (λ k, k ∉ keys2) (by_last_use keys1) ++ by_last_use keys2.
Proof.
  induction keys2 as [|k keys2 IH] using rev_ind.
  - rewrite !app_nil_r. symmetry.
    transitivity (filter (λ _ : K, True) (by_last_use keys1)).
    + apply list_filter_iff. intros x. split; [trivial|].
      intros _. apply not_elem_of_nil.
    + induction (by_last_use keys1) as [|x l IHl]; [reflexivity|].
      rewrite filter_cons_True by trivial. f_equal. exact IHl.
  - rewrite app_assoc, !by_last_use_snoc, IH, filter_app, <- app_assoc.
    f_equal. rewrite list_filter_filter. apply list_filter_iff.
    intros x. rewrite elem_of_app, list_elem_of_singleton. tauto.
Qed.

Lemma by_last_use_length_snoc keys key :
  (length (by_last_use keys) ≤ length (by_last_use (keys ++ [key])))%nat.
Proof.
  rewrite by_last_use_snoc, length_app. simpl.
  destruct (decide (key ∈ by_last_use keys)) as [Hin|Hnin].
  - pose proof (filter_ne_length key _ (by_last_use_NoDup keys) Hin). lia.
  - rewrite (filter_ne_id key _ Hnin). lia.
Qed.

(** One successful call, on the list of cached keys. *)
Lemma lru_step_keys (maxsize : nat) (f : K → res V) key (v : V) s
    (used : list K) :
  NoDup used → f key = Val v →
  od_keys (cache s) = last_n maxsize used →
  od_keys (cache (lru_cache maxsize f key s).2)
  = last_n maxsize (filter (λ k, k ≠ key) used ++ [key]).
Proof.
  intros Hnd Hv Hkeys.
  assert (Hsplit : take (length used - maxsize) used ++ last_n maxsize used = used)
    by apply take_drop.
  assert (Hlen : (length (last_n maxsize used) ≤ maxsize)%nat)
    by (unfold last_n; rewrite length_drop; lia).
  assert (Hfull : take (length used - maxsize) used = []
                  ∨ length (last_n maxsize used) = maxsize).
  { unfold last_n. rewrite length_drop.
    destruct (decide (length used ≤ maxsize)%nat) as [Hle|Hgt].
    - left. replace (length used - maxsize)%nat with 0%nat by lia. reflexivity.
    - right. lia. }
  pose proof (last_n_step (take (length used - maxsize) used)
                (last_n maxsize used) maxsize key) as Hstep.
  rewrite Hsplit in Hstep. specialize (Hstep Hnd Hlen Hfull).
  rewrite <- Hstep, <- Hkeys. clear Hstep.
  assert (Hlk : length (od_keys (cache s)) = length (cache s))
    by apply length_fmap.
  destruct (od_get key (cache s)) as [w|] eqn:Hg.
  - rewrite (lru_cache_hit _ _ _ _ _ Hg). simpl.
    destruct (decide (key ∈ od_keys (cache s))) as [_|Hn];
      [|apply od_get_None in Hn; congruence].
    unfold od_keys at 1. rewrite fmap_app. simpl.
    f_equal. apply od_del_keys. rewrite Hkeys.
    eapply sublist_NoDup; [exact Hnd|apply sublist_drop].
  - rewrite (lru_cache_miss _ _ _ _ _ Hg Hv). simpl.
    destruct (decide (key ∈ od_keys (cache s))) as [Hi|_];
      [apply od_get_None in Hg; contradiction|].
    rewrite Hlk. unfold od_keys.
    destruct (decide (maxsize < S (length (cache s)))%nat).
    + rewrite fmap_tail, fmap_app. reflexivity.
    + rewrite fmap_app. reflexivity.
Qed.

(** After a run of successful calls on a well-formed cache, the cache
    holds the most recently used keys, the keys it held before counting as
    used first. *)
Lemma lru_run_keys_from (maxsize : nat) (f : K → res V) keys s :
  NoDup (od_keys (cache s)) → (length (cache s) ≤ maxsize)%nat →
  Forall (λ k, ∃ v, f k = Val v) keys →
  od_keys (cache (lru_run maxsize f keys s))
  = last_n maxsize (by_last_use (od_keys (cache s) ++ keys)).
Proof.
  intros Hnd Hlen.
  induction keys as [|key keys IH] using rev_ind; intros Hok.
  - rewrite app_nil_r, (by_last_use_NoDup_id _ Hnd). unfold last_n, lru_run.
    simpl. unfold od_keys at 2. rewrite length_fmap.
    replace (length (cache s) - maxsize)%nat with 0%nat by lia. reflexivity.
  - apply Forall_app in Hok as [Hok Hkey].
    apply Forall_singleton in Hkey as [v Hv].
    rewrite lru_run_snoc, app_assoc, by_last_use_snoc.
    apply (lru_step_keys maxsize f key v);
      [apply by_last_use_NoDup|exact Hv|apply IH, Hok].
Qed.

(** Keys used during such a run stay in the cache as long as the run uses
    no more distinct keys than the cache can hold. *)
Lemma lru_run_keeps_used (maxsize : nat) (f : K → res V) keys key s :
  NoDup (od_keys (cache s)) → (length (cache s) ≤ maxsize)%nat →
  Forall (λ k, ∃ v, f k = Val v) keys →
  (length (by_last_use keys) ≤ maxsize)%nat →
  key ∈ keys →
  key ∈ od_keys (cache (lru_run maxsize f keys s)).
Proof.
  intros Hnd Hlen Hok Hdistinct Hin.
  rewrite (lru_run_keys_from maxsize f keys s Hnd Hlen Hok), by_last_use_app.
  unfold last_n. rewrite length_app.
  rewrite drop_app_le by lia. apply elem_of_app. right.
  apply elem_of_by_last_use. exact Hin.
Qed.

(** During such a run every key is requested from the wrapped function at
    most once. *)
Lemma lru_run_calls_once (maxsize : nat) (f : K → res V) keys s :
  NoDup (od_keys (cache s)) → (length (cache s) ≤ maxsize)%nat →
  Forall (λ k, ∃ v, f k = Val v) keys →
  (length (by_last_use keys) ≤ maxsize)%nat →
  ∃ requested,
    calls (lru_run maxsize f keys s) = calls s ++ requested
    ∧ NoDup requested ∧ requested ⊆ keys.
Proof.
  intros Hnd Hlen.
  induction keys as [|key keys IH] using rev_ind; intros Hok Hdistinct.
  - exists []. rewrite app_nil_r. split; [reflexivity|].
    split; [constructor|reflexivity].
  - apply Forall_app in Hok as [Hok Hkey].
    apply Forall_singleton in Hkey as [v Hv].
    assert (Hdistinct' : (length (by_last_use keys) ≤ maxsize)%nat).
    { pose proof (by_last_use_length_snoc keys key). lia. }
    destruct (IH Hok Hdistinct') as (requested & Hcalls & Hreq & Hsub).
    rewrite lru_run_snoc.
    destruct (od_get key (cache (lru_run maxsize f keys s))) as [w|] eqn:Hg.
    + rewrite (lru_cache_hit _ _ _ _ _ Hg). simpl.
      exists requested. split; [exact Hcalls|]. split; [exact Hreq|].
      intros k Hk. apply elem_of_app. left. apply Hsub, Hk.
    + rewrite (lru_cache_miss _ _ _ _ _ Hg Hv). simpl.
      exists (requested ++ [key]). rewrite Hcalls, app_assoc.
      split; [reflexivity|]. split.
      * apply NoDup_app. split; [exact Hreq|]. split; [|apply NoDup_singleton].
        intros k Hk Hkey. apply list_elem_of_singleton in Hkey as ->.
        apply od_get_None in Hg. apply Hg.
        apply lru_run_keeps_used; try assumption. apply Hsub, Hk.
      * intros k Hk. apply elem_of_app in Hk as [Hk|Hk];
          apply elem_of_app; [left; apply Hsub, Hk|right; exact Hk].
Qed.

End lru_more.

Lemma distinct_length {K : Type} `{EqDecision K} (keys : list K) :
  length (by_last_use keys) = length (remove_dups keys).
Proof.
  apply Permutation_length, NoDup_Permutation.
  - apply by_last_use_NoDup.
  - apply NoDup_remove_dups.
  - intros k. rewrite elem_of_by_last_use, elem_of_remove_dups. reflexivity.
Qed.

Lemma coherent_empty {K V : Type} `{EqDecision K} (f : K → res V) :
  coherent f lru_empty.
Proof. intros k v Hin. apply elem_of_nil in Hin. contradiction. Qed.

(** X8.  With a remote source that does not change, memoisation is not
    observable in the answers: on a cache that agrees with the source,
    each of the four lookups returns exactly what the remote request
    returns for the key, a value or an exception, and leaves a cache that
    still agrees with the source. *)
Theorem lookups_answer_like_remote {node_dict overpass_result : Type}
    (RelationGet : Z → res relation_dict)
    (OverpassGet : string → res overpass_result)
    (WayGet : Z → res way_dict) (NodeGet : Z → res node_dict) :
  (∀ k s, coherent NodeGet s →
          (get_node_by_id NodeGet k s).1 = NodeGet k
          ∧ coherent NodeGet (get_node_by_id NodeGet k s).2)
  ∧ (∀ k s, coherent WayGet s →
            (get_way_by_id WayGet k s).1 = WayGet k
            ∧ coherent WayGet (get_way_by_id WayGet k s).2)
  ∧ (∀ k s, coherent RelationGet s →
            (get_relation_by_id RelationGet k s).1 = RelationGet k
            ∧ coherent RelationGet (get_relation_by_id RelationGet k s).2)
  ∧ (∀ name s,
       coherent (λ n, OverpassGet (name_query n)) s →
       (get_relation_by_name OverpassGet name s).1
       = OverpassGet (name_query name)
       ∧ coherent (λ n, OverpassGet (name_query n))
           (get_relation_by_name OverpassGet name s).2).
Proof.
  split; [|split; [|split]]; intros k s Hco.
  - apply lru_cache_coherent; exact Hco.
  - apply lru_cache_coherent; exact Hco.
  - apply lru_cache_coherent; exact Hco.
  - apply (lru_cache_coherent 128 (λ n, OverpassGet (name_query n)) k s Hco).
Qed.

Lemma lookups_answer_like_remote_witness :
  (get_way_by_id Example.WayGet 2
     (lru_run 2048 Example.WayGet [1; 2; 9] lru_empty)).1
  = Val (WayDict 2 [103; 104]).
Proof.
  destruct (lookups_answer_like_remote (node_dict := unit)
              (overpass_result := unit)
              (λ _, Exc LookupFailure) (λ _, Exc LookupFailure)
              Example.WayGet (λ _, Exc LookupFailure))
    as (_ & Hway & _).
  assert (Hco : coherent Example.WayGet
                  (lru_run 2048 Example.WayGet [1; 2; 9] lru_empty)).
  { intros k v Hin. vm_compute in Hin.
    apply elem_of_cons in Hin as [[= -> ->]|Hin]; [reflexivity|].
    apply elem_of_cons in Hin as [[= -> ->]|Hin]; [reflexivity|].
    apply elem_of_nil in Hin. contradiction. }
  destruct (Hway 2 _ Hco) as [Hanswer _]. rewrite Hanswer. reflexivity.
Defined.

(** X9.  A request that fails is not memoised.  On a cache that agrees
    with the source, a lookup whose remote request raises returns that
    exception, leaves the cached entries as they were, and the next lookup
    of the same key goes to the remote source again. *)
Theorem failed_lookup_not_cached (WayGet : Z → res way_dict) (k : Z)
    (e : exn) (s : way_cache) :
  coherent WayGet s → WayGet k = Exc e →
  let s1 := (get_way_by_id WayGet k s).2 in
  (get_way_by_id WayGet k s).1 = Exc e
  ∧ cache s1 = cache s
  ∧ calls s1 = calls s ++ [k]
  ∧ (get_way_by_id WayGet k s1).1 = Exc e
  ∧ calls (get_way_by_id WayGet k s1).2 = calls s ++ [k; k].
Proof.
  intros Hco Hfail.
  assert (Hstep : ∀ s0, coherent WayGet s0 →
            get_way_by_id WayGet k s0
            = (Exc e, LruState (cache s0) (hits s0) (misses s0)
                        (calls s0 ++ [k]))).
  { intros s0 Hco0. unfold get_way_by_id.
    assert (Hnone : od_get k (cache s0) = None).
    { destruct (od_get k (cache s0)) as [w|] eqn:Hg; [|reflexivity].
      apply od_get_Some_elem, Hco0 in Hg. congruence. }
    rewrite (lru_cache_fail _ _ _ _ Hnone) by (intros v; congruence).
    rewrite Hfail. reflexivity. }
  intros s1. subst s1. rewrite (Hstep s Hco). cbn [fst snd].
  rewrite Hstep by exact Hco. cbn [fst snd calls cache].
  rewrite <- app_assoc. repeat split; reflexivity.
Qed.

Lemma failed_lookup_not_cached_witness :
  calls (get_way_by_id Example.WayGet 9
           (get_way_by_id Example.WayGet 9 lru_empty).2).2
  = [9; 9].
Proof.
  destruct (failed_lookup_not_cached Example.WayGet 9 LookupFailure lru_empty
              (coherent_empty _) eq_refl) as (_ & _ & _ & _ & Hcalls).
  exact Hcalls.
Defined.

(** The cache after [get_relation] is the cache after looking up the
    members' refs one after the other. *)
Lemma kept_state (WayGet : Z → res way_dict) (ways : list member_dict)
    (s : way_cache) :
  (kept WayGet ways s).2 = lru_run 2048 WayGet (ref <$> ways) s.
Proof.
  revert s. induction ways as [|way ways IH]; intros s; [reflexivity|].
  cbn [kept]. unfold get_way_nodes, get_way_by_id.
  change (lru_run 2048 WayGet (ref <$> way :: ways) s)
    with (lru_run 2048 WayGet (ref <$> ways)
            (lru_cache 2048 WayGet (ref way) s).2).
  destruct (lru_cache 2048 WayGet (ref way) s) as [[w| |] s']; cbn [snd];
    try apply IH.
  destruct (nd w) as [|n0 nd']; [apply IH|].
  rewrite <- IH. destruct (kept WayGet ways s'). reflexivity.
Qed.

(** X10.  Building the table twice gives the same table: on a cache that
    agrees with the remote source, a second call of [get_relation_members]
    on the same relation returns the rows and node lists of the first
    call, although the first call has changed the cache. *)
Theorem get_relation_members_repeatable (WayGet : Z → res way_dict)
    (relation : relation_dict) (skip : bool) (value : string) (s : way_cache) :
  coherent WayGet s →
  (get_relation_members WayGet relation skip value
     (get_relation_members WayGet relation skip value s).2).1
  = (get_relation_members WayGet relation skip value s).1.
Proof.
  intros Hco. unfold get_relation_members.
  set (members := if skip then skip_ways (member relation) value
                  else member relation).
  assert (Hco' : coherent WayGet (get_relation WayGet members s).2).
  { rewrite get_relation_kept. cbn [snd].
    apply (kept_coherent WayGet members s Hco). }
  rewrite (get_relation_coherent WayGet members _ Hco').
  rewrite (get_relation_coherent WayGet members _ Hco). reflexivity.
Qed.

Lemma get_relation_members_repeatable_witness :
  (get_relation_members Example.WayGet Example.relation true "alternative"
     (get_relation_members Example.WayGet Example.relation true "alternative"
        lru_empty).2).1
  = ([Row 1 101 103; Row 2 103 104; Row 3 104 105],
     [[101; 102; 103]; [103; 104]; [104; 105]]).
Proof.
  rewrite (get_relation_members_repeatable Example.WayGet Example.relation
             true "alternative" lru_empty (coherent_empty _)).
  reflexivity.
Defined.

(** X11.  While a relation is turned into a table, every way is requested
    from the remote source at most once, and only ways of the member list
    are requested.  This holds when all requests succeed, the member list
    names at most 2048 different ways (the capacity of the cache), and the
    cache is well formed (no key twice, at most 2048 entries). *)
Theorem ways_requested_once (WayGet : Z → res way_dict)
    (ways : list member_dict) (s : way_cache) :
  NoDup (od_keys (cache s)) → (length (cache s) ≤ 2048)%nat →
  Forall (λ way, ∃ w, WayGet (ref way) = Val w) ways →
  (length (remove_dups (ref <$> ways)) ≤ 2048)%nat →
  ∃ requested,
    calls (get_relation WayGet ways s).2 = calls s ++ requested
    ∧ NoDup requested ∧ requested ⊆ ref <$> ways.
Proof.
  intros Hnd Hlen Hok Hdistinct.
  rewrite get_relation_kept. cbn [snd]. rewrite kept_state.
  apply lru_run_calls_once; try assumption.
  - apply Forall_fmap. exact Hok.
  - rewrite distinct_length. exact Hdistinct.
Qed.

Lemma ways_requested_once_witness :
  ∃ requested,
    calls (get_relation Example.WayGet
             [Member "way" 1 EmptyString; Member "way" 2 EmptyString;
              Member "way" 1 "forward"; Member "way" 2 EmptyString]
             lru_empty).2
    = calls (lru_empty : way_cache) ++ requested
    ∧ NoDup requested
    ∧ requested ⊆ [1; 2; 1; 2].
Proof.
  apply (ways_requested_once Example.WayGet
           [Member "way" 1 EmptyString; Member "way" 2 EmptyString;
            Member "way" 1 "forward"; Member "way" 2 EmptyString]
           lru_empty).
  - constructor.
  - simpl. lia.
  - repeat constructor; eexists; reflexivity.
  - vm_compute. lia.
Defined.

(** * [get_elevation] *)

Section elevation_facts.
Context {F E : Type}.
Variable NodeGet : Z → res (node_dict F).
Variable srtm_elevation : F → F → E.

Lemma get_elevation_from_ok (track_points : list Z) :
  ∀ (elevation : gmap Z E) (s : lru_state Z (node_dict F)) (printed : list E),
    coherent NodeGet s →
    Forall (λ nd, ∃ node, NodeGet nd = Val node) track_points →
    ∃ elevation' s' printed',
      get_elevation_from NodeGet srtm_elevation track_points elevation s printed
      = (Val elevation', s', printed')
      ∧ dom elevation' = dom elevation ∪ list_to_set track_points
      ∧ (∀ nd node, nd ∈ track_points → NodeGet nd = Val node →
                    elevation' !! nd
                    = Some (srtm_elevation (lat node) (lon node)))
      ∧ (∀ nd, nd ∉ track_points → elevation' !! nd = elevation !! nd)
      ∧ length printed' = (length printed + length track_points)%nat
      ∧ s' = lru_run 4096 NodeGet track_points s.
Proof.
  induction track_points as [|nd track_points IH];
    intros elevation s printed Hco Hok.
  - exists elevation, s, printed. split; [reflexivity|]. split.
    + rewrite list_to_set_nil, union_empty_r_L. reflexivity.
    + split; [intros nd node Hin; apply elem_of_nil in Hin; contradiction|].
      split; [reflexivity|]. split; [simpl; lia|reflexivity].
  - apply Forall_cons in Hok as [[node Hnode] Hok].
    cbn [get_elevation_from]. unfold get_node_by_id.
    destruct (lru_cache_coherent 4096 NodeGet nd s Hco) as [Hanswer Hco'].
    change (lru_run 4096 NodeGet (nd :: track_points) s)
      with (lru_run 4096 NodeGet track_points (lru_cache 4096 NodeGet nd s).2).
    destruct (lru_cache 4096 NodeGet nd s) as [r s1]. cbn [fst snd] in *.
    rewrite Hanswer, Hnode.
    destruct (IH (<[nd := srtm_elevation (lat node) (lon node)]> elevation) s1
                (printed ++ [srtm_elevation (lat node) (lon node)]) Hco' Hok)
      as (elevation' & s' & printed' & Hrun & Hdom & Hin & Hout & Hlen & Hs').
    exists elevation', s', printed'. split; [exact Hrun|]. split.
    + rewrite Hdom, dom_insert_L, list_to_set_cons.
      rewrite (union_comm_L {[nd]} (dom elevation)), union_assoc_L.
      reflexivity.
    + split; [|split; [|split]].
      * intros nd' node' Hnd' Hnode'.
        destruct (decide (nd' ∈ track_points)) as [Hrest|Hrest];
          [apply Hin; assumption|].
        apply elem_of_cons in Hnd' as [->|Hnd']; [|contradiction].
        rewrite (Hout nd Hrest), lookup_insert_eq.
        rewrite Hnode in Hnode'. injection Hnode' as <-. reflexivity.
      * intros nd' Hnd'. apply not_elem_of_cons in Hnd' as [Hne Hnd'].
        rewrite (Hout nd' Hnd'). apply lookup_insert_ne. congruence.
      * rewrite Hlen, length_app. simpl. lia.
      * exact Hs'.
Qed.

Lemma get_elevation_from_fail (before after : list Z) (nd : Z) (e : exn) :
  ∀ (elevation : gmap Z E) (s : lru_state Z (node_dict F)) (printed : list E),
    coherent NodeGet s →
    Forall (λ nd, ∃ node, NodeGet nd = Val node) before →
    NodeGet nd = Exc e →
    ∃ s' printed',
      get_elevation_from NodeGet srtm_elevation (before ++ nd :: after)
        elevation s printed
      = (Exc e, s', printed')
      ∧ length printed' = (length printed + length before)%nat.
Proof.
  induction before as [|nd0 before IH]; intros elevation s printed Hco Hok Hfail.
  - cbn [app get_elevation_from]. unfold get_node_by_id.
    destruct (lru_cache_coherent 4096 NodeGet nd s Hco) as [Hanswer _].
    destruct (lru_cache 4096 NodeGet nd s) as [r s1]. cbn [fst] in Hanswer.
    rewrite Hanswer, Hfail. exists s1, printed.
    split; [reflexivity|simpl; lia].
  - apply Forall_cons in Hok as [[node Hnode] Hok].
    cbn [app get_elevation_from]. unfold get_node_by_id.
    destruct (lru_cache_coherent 4096 NodeGet nd0 s Hco) as [Hanswer Hco'].
    destruct (lru_cache 4096 NodeGet nd0 s) as [r s1]. cbn [fst snd] in *.
    rewrite Hanswer, Hnode.
    destruct (IH (<[nd0 := srtm_elevation (lat node) (lon node)]> elevation) s1
                (printed ++ [srtm_elevation (lat node) (lon node)])
                Hco' Hok Hfail) as (s' & printed' & Hrun & Hlen).
    exists s', printed'. split; [exact Hrun|].
    rewrite Hlen, length_app. simpl. lia.
Qed.

End elevation_facts.

(** X12.  When every node of the track can be fetched, [get_elevation]
    returns a dictionary whose keys are exactly the node ids of the track:
    a node that occurs several times in the track has one entry.  The
    entry of a node is the elevation that the srtm data gives for the
    node's latitude and longitude, and one line is printed per element of
    the track, repeated nodes included. *)
Theorem get_elevation_all_nodes {F E : Type} (NodeGet : Z → res (node_dict F))
    (srtm_elevation : F → F → E) (track_points : list Z)
    (s : lru_state Z (node_dict F)) :
  coherent NodeGet s →
  Forall (λ nd, ∃ node, NodeGet nd = Val node) track_points →
  ∃ elevation s' printed,
    get_elevation NodeGet srtm_elevation track_points s
    = (Val elevation, s', printed)
    ∧ dom elevation = list_to_set track_points
    ∧ (∀ nd node, nd ∈ track_points → NodeGet nd = Val node →
                  elevation !! nd = Some (srtm_elevation (lat node) (lon node)))
    ∧ length printed = length track_points.
Proof.
  intros Hco Hok. unfold get_elevation.
  destruct (get_elevation_from_ok NodeGet srtm_elevation track_points ∅ s []
              Hco Hok)
    as (elevation & s' & printed & Hrun & Hdom & Hin & _ & Hlen & _).
  exists elevation, s', printed. split; [exact Hrun|]. split.
  - rewrite Hdom, dom_empty_L, union_empty_l_L. reflexivity.
  - split; [exact Hin|exact Hlen].
Qed.

(** X13.  [get_elevation] has no handler around [get_node_by_id]: when the
    request for a node of the track fails, the exception ends the call and
    no dictionary is returned, not even for the nodes before it, whose
    elevations have been printed by then.  (The table builder, in
    contrast, skips a way that cannot be fetched.) *)
Theorem get_elevation_fails_with_node {F E : Type}
    (NodeGet : Z → res (node_dict F)) (srtm_elevation : F → F → E)
    (before after : list Z) (nd : Z) (e : exn)
    (s : lru_state Z (node_dict F)) :
  coherent NodeGet s →
  Forall (λ nd, ∃ node, NodeGet nd = Val node) before →
  NodeGet nd = Exc e →
  ∃ s' printed,
    get_elevation NodeGet srtm_elevation (before ++ nd :: after) s
    = (Exc e, s', printed)
    ∧ length printed = length before.
Proof.
  intros Hco Hok Hfail. unfold get_elevation.
  destruct (get_elevation_from_fail NodeGet srtm_elevation before after nd e
              ∅ s [] Hco Hok Hfail) as (s' & printed & Hrun & Hlen).
  exists s', printed. split; [exact Hrun|exact Hlen].
Qed.

(** X14.  [get_elevation] requests every node from the remote source at
    most once, also when the track visits it several times, as long as all
    requests succeed, the track has at most 4096 different nodes (the
    capacity of the cache) and the cache is well formed. *)
Theorem nodes_requested_once {F E : Type} (NodeGet : Z → res (node_dict F))
    (srtm_elevation : F → F → E) (track_points : list Z)
    (s : lru_state Z (node_dict F)) :
  coherent NodeGet s →
  NoDup (od_keys (cache s)) → (length (cache s) ≤ 4096)%nat →
  Forall (λ nd, ∃ node, NodeGet nd = Val node) track_points →
  (length (remove_dups track_points) ≤ 4096)%nat →
  ∃ requested,
    calls (get_elevation NodeGet srtm_elevation track_points s).1.2
    = calls s ++ requested
    ∧ NoDup requested ∧ requested ⊆ track_points.
Proof.
  intros Hco Hnd Hlen Hok Hdistinct. unfold get_elevation.
  destruct (get_elevation_from_ok NodeGet srtm_elevation track_points ∅ s []
              Hco Hok)
    as (elevation & s' & printed & Hrun & _ & _ & _ & _ & Hs').
  rewrite Hrun. cbn [fst snd]. subst s'.
  apply lru_run_calls_once; try assumption.
  rewrite distinct_length. exact Hdistinct.
Qed.

Lemma get_elevation_all_nodes_witness :
  ∃ elevation s' printed,
    get_elevation ExampleNodes.NodeGet ExampleNodes.srtm_elevation [1; 2; 1]
      lru_empty
    = (Val elevation, s', printed)
    ∧ dom elevation = list_to_set [1; 2; 1]
    ∧ (∀ nd node, nd ∈ [1; 2; 1] → ExampleNodes.NodeGet nd = Val node →
                  elevation !! nd
                  = Some (ExampleNodes.srtm_elevation (lat node) (lon node)))
    ∧ length printed = 3%nat.
Proof.
  apply (get_elevation_all_nodes ExampleNodes.NodeGet
           ExampleNodes.srtm_elevation [1; 2; 1] lru_empty).
  - apply coherent_empty.
  - repeat constructor; eexists; reflexivity.
Defined.

Lemma get_elevation_fails_with_node_witness :
  ∃ s' printed,
    get_elevation ExampleNodes.NodeGet ExampleNodes.srtm_elevation
      ([1; 2] ++ 7 :: [1]) lru_empty
    = (Exc LookupFailure, s', printed)
    ∧ length printed = 2%nat.
Proof.
  apply (get_elevation_fails_with_node ExampleNodes.NodeGet
           ExampleNodes.srtm_elevation [1; 2] [1] 7 LookupFailure lru_empty).
  - apply coherent_empty.
  - repeat constructor; eexists; reflexivity.
  - reflexivity.
Defined.

Lemma nodes_requested_once_witness :
  ∃ requested,
    calls (get_elevation ExampleNodes.NodeGet ExampleNodes.srtm_elevation
             [1; 2; 1; 2; 2] lru_empty).1.2
    = calls (lru_empty : lru_state Z (node_dict Z)) ++ requested
    ∧ NoDup requested ∧ requested ⊆ [1; 2; 1; 2; 2].
Proof.
  apply (nodes_requested_once ExampleNodes.NodeGet ExampleNodes.srtm_elevation
           [1; 2; 1; 2; 2] lru_empty).
  - apply coherent_empty.
  - constructor.
  - simpl. lia.
  - repeat constructor; eexists; reflexivity.
  - vm_compute. lia.
Defined.

(** * Bounding boxes *)



(** * Links to openstreetmap.org *)

Lemma list_ascii_of_append (s1 s2 : string) :
  String.list_ascii_of_string (s1 +:+ s2)
  = String.list_ascii_of_string s1 ++ String.list_ascii_of_string s2.
Proof. induction s1 as [|a s1 IH]; simpl; [reflexivity|]. f_equal. exact IH. Qed.

Lemma list_ascii_inj (s1 s2 : string) :
  String.list_ascii_of_string s1 = String.list_ascii_of_string s2 → s1 = s2.
Proof.
  intros Heq. rewrite <- (String.string_of_list_ascii_of_string s1),
    <- (String.string_of_list_ascii_of_string s2), Heq. reflexivity.
Qed.

Lemma append_inj_r (s1 s2 t : string) : s1 +:+ t = s2 +:+ t → s1 = s2.
Proof.
  intros Heq. apply list_ascii_inj.
  apply (f_equal String.list_ascii_of_string) in Heq.
  rewrite !list_ascii_of_append in Heq.
  eapply app_inv_tail. exact Heq.
Qed.

Lemma query_id_to_osm_inj (a b : Z) (what layer_code : string) :
  query_id_to_osm a what layer_code = query_id_to_osm b what layer_code →
  a = b.
Proof.
  unfold query_id_to_osm. intros Heq.
  apply String.app_inj, String.app_inj, String.app_inj in Heq.
  apply append_inj_r in Heq. unfold str_int in Heq.
  exact (pretty_Z_inj _ _ Heq).
Qed.

(** X17.  A link built by [way_to_osm], [relation_to_osm] or [node_to_osm]
    (without marker) identifies its object: for one layer, two ways (two
    relations, two nodes) with different ids get different links, and a
    link to a way is never a link to a relation or a node.  [node_to_osm]
    without marker makes no request and leaves the cache alone. *)
Theorem osm_link_identifies_object {F : Type} (str_float : F → string)
    (convert_lat_lon : coord F → coord F → res (F * F))
    (NodeGet : Z → res (node_dict F)) (layer_code : string) (a b : Z)
    (zoom_level : Z) (s : lru_state Z (node_dict F)) :
  (way_to_osm a layer_code = way_to_osm b layer_code → a = b)
  ∧ (relation_to_osm a layer_code = relation_to_osm b layer_code → a = b)
  ∧ node_to_osm str_float convert_lat_lon NodeGet a layer_code false
      zoom_level s
    = (Val (Some (query_id_to_osm a "node" layer_code)), s)
  ∧ (query_id_to_osm a "node" layer_code = query_id_to_osm b "node" layer_code
     → a = b)
  ∧ way_to_osm a layer_code ≠ relation_to_osm b layer_code
  ∧ way_to_osm a layer_code ≠ query_id_to_osm b "node" layer_code
  ∧ relation_to_osm a layer_code ≠ query_id_to_osm b "node" layer_code.
Proof.
  split; [apply query_id_to_osm_inj|].
  split; [apply query_id_to_osm_inj|].
  split; [reflexivity|].
  split; [apply query_id_to_osm_inj|].
  unfold way_to_osm, relation_to_osm, query_id_to_osm.
  repeat split; intros Heq; apply String.app_inj in Heq; discriminate.
Qed.

Lemma osm_link_identifies_object_witness :
  way_to_osm 305561115 "M" ≠ relation_to_osm 305561115 "M".
Proof.
  destruct (osm_link_identifies_object ExampleNodes.str_float
              (λ _ _, Exc LookupFailure) ExampleNodes.NodeGet "M"
              305561115 305561115 14 lru_empty)
    as (_ & _ & _ & _ & Hkinds & _).
  exact Hkinds.
Defined.

Lemma str_in_refl (s : string) : str_in s s = true.
Proof.
  destruct s as [|a s]; [reflexivity|]. cbn [str_in].
  apply orb_true_iff. left.
  assert (Hprefix : ∀ t : string, String.prefix t t = true).
  { induction t as [|c t IH]; [reflexivity|]. simpl.
    destruct (Ascii.ascii_dec c c); [exact IH|congruence]. }
  apply Hprefix.
Qed.

(** X18.  [lat_lon_to_osm] chooses the format by substring tests
    ([geo_format in '...']).  The result is None exactly when
    [geo_format] occurs neither in 'degrees decimal minutes' nor in
    'decimal degrees'; and every [geo_format] that occurs in 'degrees
    decimal minutes', such as the empty string, 'decimal' or 'degrees', is
    treated like 'degrees decimal minutes' itself: the coordinates go
    through [convert_lat_lon]. *)
Theorem lat_lon_to_osm_dispatch {F : Type} (str_float : F → string)
    (convert_lat_lon : coord F → coord F → res (F * F))
    (lat lon : coord F) (geo_format layer_code : string) (zoom_level : Z) :
  (lat_lon_to_osm str_float convert_lat_lon lat lon geo_format layer_code
     zoom_level = Val None
   ↔ str_in geo_format "degrees decimal minutes" = false
     ∧ str_in geo_format "decimal degrees" = false)
  ∧ (str_in geo_format "degrees decimal minutes" = true →
     lat_lon_to_osm str_float convert_lat_lon lat lon geo_format layer_code
       zoom_level
     = lat_lon_to_osm str_float convert_lat_lon lat lon
         "degrees decimal minutes" layer_code zoom_level).
Proof.
  split.
  - unfold lat_lon_to_osm.
    destruct (str_in geo_format "degrees decimal minutes").
    + split; [|intros [? _]; discriminate].
      destruct (convert_lat_lon lat lon) as [[la lo]| |]; discriminate.
    + destruct (str_in geo_format "decimal degrees").
      * split; [discriminate|intros [_ ?]; discriminate].
      * split; [intros _; split; reflexivity|reflexivity].
  - intros Hin. unfold lat_lon_to_osm.
    rewrite Hin, (str_in_refl "degrees decimal minutes"). reflexivity.
Qed.

Lemma lat_lon_to_osm_dispatch_witness :
  lat_lon_to_osm ExampleNodes.str_float
    (λ _ _, Val (59, 18)) (Text "N 59 0.0") (Text "E 18 0.0") "decimal" "M" 14
  = lat_lon_to_osm ExampleNodes.str_float
      (λ _ _, Val (59, 18)) (Text "N 59 0.0") (Text "E 18 0.0")
      "degrees decimal minutes" "M" 14.
Proof.
  destruct (lat_lon_to_osm_dispatch ExampleNodes.str_float
              (λ _ _, Val (59, 18)) (Text "N 59 0.0") (Text "E 18 0.0")
              "decimal" "M" 14) as [_ Hsame].
  apply Hsame. reflexivity.
Defined.

(** X19.  [node_to_osm] with a marker.  On a cache that agrees with the
    remote source: when the node can be fetched, the link is centred on the
    node's own latitude and longitude, written with [str], and
    [convert_lat_lon] plays no part, whatever it would do; when the
    request for the node raises, [node_to_osm] raises the same
    exception. *)
Theorem node_to_osm_marker {F : Type} (str_float : F → string)
    (convert_lat_lon : coord F → coord F → res (F * F))
    (NodeGet : Z → res (node_dict F)) (node_id : Z) (layer_code : string)
    (zoom_level : Z) (s : lru_state Z (node_dict F)) :
  coherent NodeGet s →
  (∀ node, NodeGet node_id = Val node →
     (node_to_osm str_float convert_lat_lon NodeGet node_id layer_code true
        zoom_level s).1
     = Val (Some ("http://www.openstreetmap.org/?mlat="
                  +:+ str_float (lat node) +:+ "&mlon="
                  +:+ str_float (lon node) +:+ "#map=" +:+ str_int zoom_level
                  +:+ "/" +:+ str_float (lat node) +:+ "/"
                  +:+ str_float (lon node) +:+ "&layers=" +:+ layer_code)))
  ∧ (∀ e, NodeGet node_id = Exc e →
       (node_to_osm str_float convert_lat_lon NodeGet node_id layer_code true
          zoom_level s).1 = Exc e)
  ∧ coherent NodeGet
      (node_to_osm str_float convert_lat_lon NodeGet node_id layer_code true
         zoom_level s).2.
Proof.
  intros Hco. unfold node_to_osm, get_node_by_id.
  destruct (lru_cache_coherent 4096 NodeGet node_id s Hco) as [Hanswer Hco'].
  destruct (lru_cache 4096 NodeGet node_id s) as [r s']. cbn [fst snd] in *.
  subst r. split; [|split].
  - intros node Hnode. rewrite Hnode. reflexivity.
  - intros e He. rewrite He. reflexivity.
  - destruct (NodeGet node_id); exact Hco'.
Qed.

Lemma node_to_osm_marker_witness :
  (node_to_osm ExampleNodes.str_float (λ _ _, Exc LookupFailure)
     ExampleNodes.NodeGet 1 "H" true 14 lru_empty).1
  = Val (Some "http://www.openstreetmap.org/?mlat=59&mlon=18#map=14/59/18&layers=H").
Proof.
  destruct (node_to_osm_marker ExampleNodes.str_float
              (λ _ _, Exc LookupFailure) ExampleNodes.NodeGet 1 "H" 14
              lru_empty (coherent_empty _)) as [Hurl _].
  exact (Hurl (NodeDict 1 59 18) eq_refl).
Defined.

(** * Frames *)

Lemma column_index_lookup (columns : list string) :
  NoDup columns →
  ∀ i name, columns !! i = Some name → column_index name columns = Some i.
Proof.
  induction 1 as [|c columns Hc _ IH]; intros i name Hi.
  - rewrite lookup_nil in Hi. discriminate.
  - destruct i as [|i]; simpl in Hi.
    + injection Hi as ->. simpl. rewrite decide_True by reflexivity.
      reflexivity.
    + simpl. rewrite decide_False.
      * rewrite (IH i name Hi). reflexivity.
      * intros ->. apply Hc. eapply list_elem_of_lookup_2. exact Hi.
Qed.

Lemma column_indexes_lookup (columns : list string) :
  NoDup columns →
  ∀ names idx,
    Forall2 (λ name i, columns !! i = Some name) names idx →
    column_indexes names columns = Val idx.
Proof.
  intros Hnd names idx Hall.
  induction Hall as [|name i names idx Hi _ IH]; [reflexivity|].
  simpl. rewrite (column_index_lookup columns Hnd i name Hi), IH.
  reflexivity.
Qed.

Lemma lookup_all_seq {A : Type} (d : A) (l t : list A) :
  (λ i, default d ((l ++ t) !! i)) <$> seq 0 (length l) = l.
Proof.
  apply list_eq. intros i. rewrite list_lookup_fmap.
  destruct (decide (i < length l)%nat) as [Hlt|Hge].
  - rewrite lookup_seq_lt by exact Hlt. simpl.
    rewrite lookup_app_l by exact Hlt.
    destruct (lookup_lt_is_Some_2 l i Hlt) as [x Hx]. rewrite Hx.
    reflexivity.
  - rewrite lookup_seq_ge by lia. rewrite lookup_ge_None_2 by lia.
    reflexivity.
Qed.

Lemma slice_last {A : Type} (l : list A) (x : A) :
  slice (Some (-1)) None (l ++ [x]) = [x]
  ∧ slice None (Some (-1)) (l ++ [x]) = l.
Proof.
  unfold slice, clamp. rewrite length_app. cbn [length from_option].
  change (-1 <? 0) with true. cbv iota.
  replace (Z.max (-1 + Z.of_nat (length l + 1)) 0) with (Z.of_nat (length l))
    by lia.
  split.
  - replace (Z.to_nat (Z.of_nat (length l + 1) - Z.of_nat (length l)))
      with 1%nat by lia.
    rewrite Nat2Z.id, drop_app_length. reflexivity.
  - rewrite Z.sub_0_r, Nat2Z.id. change (Z.to_nat 0) with 0%nat.
    rewrite drop_0. apply take_app_length.
Qed.

(** X20.  [change_column_order] moves the last column to the front and
    keeps the other columns in their order, in the header and in every
    row.  The column names are distinct, and every row has one cell per
    column. *)
Theorem change_column_order_last_first (names : list string) (name : string)
    (body : list (list cell_value * cell_value)) :
  NoDup (names ++ [name]) →
  Forall (λ p, length p.1 = length names) body →
  change_column_order (Frame (names ++ [name]) ((λ p, p.1 ++ [p.2]) <$> body))
  = Val (Frame (name :: names) ((λ p, p.2 :: p.1) <$> body)).
Proof.
  intros Hnd Hbody. unfold change_column_order, select_columns.
  cbn [columns rows].
  destruct (slice_last names name) as [-> ->].
  rewrite (column_indexes_lookup (names ++ [name]) Hnd ([name] ++ names)
             (length names :: seq 0 (length names))).
  - f_equal. f_equal. rewrite <- list_fmap_compose.
    apply Forall_fmap_ext. eapply Forall_impl; [exact Hbody|].
    intros [cells cell] Hlen. simpl in *. rewrite <- Hlen.
    rewrite list_lookup_middle by reflexivity. simpl. f_equal.
    apply lookup_all_seq.
  - constructor.
    + apply list_lookup_middle. reflexivity.
    + apply Forall2_same_length_lookup_2; [rewrite length_seq; reflexivity|].
      intros i x j Hx Hj. apply lookup_seq in Hj as [-> _]. simpl.
      apply lookup_app_l_Some. exact Hx.
Qed.

Lemma change_column_order_last_first_witness :
  change_column_order
    (Frame (["way"; "begin"] ++ ["relation"])
           ((λ p, p.1 ++ [p.2])
              <$> [([Int 1; Int 101], Int 7); ([Int 2; Int 103], Int 7)]))
  = Val (Frame ("relation" :: ["way"; "begin"])
               ((λ p, p.2 :: p.1)
                  <$> [([Int 1; Int 101], Int 7); ([Int 2; Int 103], Int 7)])).
Proof.
  apply change_column_order_last_first.
  - apply (bool_decide_unpack (NoDup (["way"; "begin"] ++ ["relation"]))).
    vm_compute. exact I.
  - repeat constructor.
Defined.

Lemma get_relation_members_lengths (WayGet : Z → res way_dict)
    (relation : relation_dict) (skip : bool) (value : string) (s : way_cache) :
  length (get_relation_members WayGet relation skip value s).1.2
  = length (get_relation_members WayGet relation skip value s).1.1.
Proof.
  unfold get_relation_members. rewrite get_relation_kept. simpl.
  rewrite !length_fmap. reflexivity.
Qed.

(** X21.  The frames of [relation_to_dataframes], from the table [df] and
    the node lists [l_nodes] that [get_relation_members] gives.  Without a
    'name' tag the function raises KeyError, after the ways have been
    requested.  With one: the ways frame has the columns relation, way,
    begin, end and one row per row of [df], in its order, with the
    relation id in front; the nodes frame has one row per row of [df] as
    well, the row at an index holding the way of [df] and the node list of
    [l_nodes] at this index, both as strings; the relation frame has one
    row, whose source is None when the relation has no 'source' tag. *)
Theorem relation_to_dataframes_frames (str_nodes : list Z → string)
    (WayGet : Z → res way_dict) (relation : relation_dict)
    (tag : gmap string string) (skip : bool) (value : string) (s : way_cache) :
  let df := (get_relation_members WayGet relation skip value s).1.1 in
  let l_nodes := (get_relation_members WayGet relation skip value s).1.2 in
  let s' := (get_relation_members WayGet relation skip value s).2 in
  let result := relation_to_dataframes str_nodes WayGet relation tag skip
                  value s in
  result.2 = s'
  ∧ (tag !! "name" = None → result.1 = Exc KeyError)
  ∧ (∀ name, tag !! "name" = Some name →
       ∃ df_nodes,
         result.1
         = Val (Frame ["relation"; "name"; "source"]
                      [[Int (relation_id relation); Str name;
                        from_option Str NoneCell (tag !! "source")]],
                Frame ["relation"; "way"; "begin"; "end"]
                      ((λ r, [Int (relation_id relation); Int (way r);
                              Int (begin r); Int (end_ r)]) <$> df),
                df_nodes)
         ∧ columns df_nodes = ["relation"; "way"; "nodes"]
         ∧ length (rows df_nodes) = length df
         ∧ ∀ i r nodes,
             df !! i = Some r → l_nodes !! i = Some nodes →
             rows df_nodes !! i
             = Some [Int (relation_id relation); Str (str_int (way r));
                     Str (str_nodes nodes)]).
Proof.
  intros df l_nodes s' result.
  pose proof (get_relation_members_lengths WayGet relation skip value s)
    as Hlen.
  fold df l_nodes in Hlen.
  subst result. unfold relation_to_dataframes.
  subst df l_nodes s'.
  destruct (get_relation_members WayGet relation skip value s)
    as [[df l_nodes] s']. cbn [fst snd] in *.
  assert (Hways :
    change_column_order
      (add_columns (frame_of df) [("relation", Int (relation_id relation))])
    = Val (Frame ["relation"; "way"; "begin"; "end"]
                 ((λ r, [Int (relation_id relation); Int (way r);
                         Int (begin r); Int (end_ r)]) <$> df))).
  { unfold add_columns, frame_of. cbn [foldl fst snd].
    unfold set_column. cbn [columns rows].
    change (column_index "relation" ["way"; "begin"; "end"]) with (@None nat).
    cbv iota. unfold change_column_order, select_columns. cbn [columns rows].
    change (column_indexes _ _) with (Val [3; 0; 1; 2]%nat).
    cbv iota. f_equal. f_equal. rewrite <- !list_fmap_compose.
    apply list_fmap_ext. intros i r _. reflexivity. }
  rewrite Hways. clear Hways.
  split; [destruct (tag !! "name"); reflexivity|].
  split; [intros ->; reflexivity|].
  intros name ->. eexists. split; [reflexivity|].
  split; [reflexivity|]. cbn [rows]. split.
  - rewrite length_zip_with, !length_fmap. lia.
  - intros i r nodes Hr Hnodes. rewrite lookup_zip_with, !list_lookup_fmap.
    rewrite Hr, Hnodes. reflexivity.
Qed.

Lemma relation_to_dataframes_frames_witness :
  (relation_to_dataframes (λ _, "nodes") Example.WayGet Example.relation ∅
     true "alternative" lru_empty).1 = Exc KeyError.
Proof.
  destruct (relation_to_dataframes_frames (λ _, "nodes") Example.WayGet
              Example.relation ∅ true "alternative" lru_empty)
    as (_ & Hkey & _).
  apply Hkey. reflexivity.
Defined.

(** X22.  [get_relation] does not look at the type of a member.  A member
    of type 'node', which [get_way_points] reports as a way point, is
    requested as a way all the same; when the source has a way of this id,
    with nodes, the node member gets a row of the table like a way. *)
Theorem node_member_looked_up_as_way (WayGet : Z → res way_dict)
    (relation : relation_dict) (value : string) (s : way_cache)
    (m : member_dict) (w : way_dict) :
  coherent WayGet s →
  m ∈ member relation → type_ m = "node" →
  WayGet (ref m) = Val w → nd w ≠ [] →
  ref m ∈ get_way_points relation
  ∧ ∃ i r,
      (get_relation_members WayGet relation false value s).1.1 !! i = Some r
      ∧ (get_relation_members WayGet relation false value s).1.2 !! i
        = Some (nd w)
      ∧ way r = ref m
      ∧ head (nd w) = Some (begin r) ∧ last (nd w) = Some (end_ r).
Proof.
  intros Hco Hm Htype Hw Hne. split.
  - unfold get_way_points. apply list_elem_of_fmap_2.
    apply list_elem_of_In, filter_In.
    split; [apply list_elem_of_In; exact Hm|].
    rewrite Htype. reflexivity.
  - unfold get_relation_members.
    rewrite (get_relation_coherent WayGet (member relation) s Hco).
    cbn [fst snd].
    assert (Hin : (m, nd w) ∈ remote_table WayGet (member relation)).
    { unfold remote_table. apply list_elem_of_omap. exists m.
      split; [exact Hm|]. unfold remote_nodes. rewrite Hw.
      destruct (nd w); [congruence|reflexivity]. }
    apply list_elem_of_lookup_1 in Hin as [i Hi].
    exists i, (way_row m (nd w)). rewrite !list_lookup_fmap, Hi.
    split; [reflexivity|]. split; [reflexivity|]. split; [reflexivity|].
    split.
    + apply head_Some_hd. exact Hne.
    + apply last_Some_default. exact Hne.
Qed.

Lemma node_member_looked_up_as_way_witness :
  2 ∈ get_way_points
        (Relation 7 [Member "way" 1 EmptyString; Member "node" 2 EmptyString])
  ∧ ∃ i r,
      (get_relation_members Example.WayGet
         (Relation 7 [Member "way" 1 EmptyString; Member "node" 2 EmptyString])
         false "alternative" lru_empty).1.1 !! i = Some r
      ∧ (get_relation_members Example.WayGet
           (Relation 7 [Member "way" 1 EmptyString; Member "node" 2 EmptyString])
           false "alternative" lru_empty).1.2 !! i = Some [103; 104]
      ∧ way r = 2
      ∧ head [103; 104] = Some (begin r) ∧ last [103; 104] = Some (end_ r).
Proof.
  apply (node_member_looked_up_as_way Example.WayGet
           (Relation 7 [Member "way" 1 EmptyString; Member "node" 2 EmptyString])
           "alternative" lru_empty (Member "node" 2 EmptyString)
           (WayDict 2 [103; 104])).
  - apply coherent_empty.
  - apply list_elem_of_further, list_elem_of_here.
  - reflexivity.
  - reflexivity.
  - discriminate.
Defined.
